(** * Mython interpreter: lexer, runtime value model and AST evaluation

    A shallow embedding of the Mython interpreter (lexer.cpp / lexer.h,
    runtime.cpp, statement.cpp) together with the properties its design
    document states about it.

    Conventions of the embedding:
    - [int] is a C++ [int] holding the result of [istream::get]/[peek]:
      the value -1 is [EOF], 0..255 is a byte.  [char] is [ascii]; the
      conversions [to_char] / [of_char] are the implicit C++ narrowing and
      (signed) promotion.
    - [size_t] is a [Z] kept in [0, 2^64) with the wrap-around written out.
    - loops that the C++ code runs without a static bound take a [fuel]
      argument; running out of fuel is a result of its own and is never
      identified with a normal result. *)

From Stdlib Require Import ZArith List Ascii String Bool Lia DecimalString.
From stdpp Require Import gmap strings list.

Local Open Scope Z_scope.
Set Warnings "-register-all".

(* ===================================================================== *)
(** * Lexer (namespace parse) *)
(* ===================================================================== *)

Module parse.

(** ** std::istream over one line (std::stringstream) *)

Definition int := Z.
Definition EOF : int := -1.

(** [char c = <int>]: narrowing to a byte. *)
Definition to_char (z : int) : ascii := ascii_of_N (Z.to_N (z mod 256)).

(** Promotion of a (signed) [char] to [int]. *)
Definition of_char (c : ascii) : int :=
  let n := Z.of_N (N_of_ascii c) in if n <? 128 then n else n - 256.

(** The value [to_int_type] gives a byte read from the stream (0..255). *)
Definition byte_int (c : ascii) : int := Z.of_N (N_of_ascii c).

(** The state of the stream: the unread characters and [eofbit].  In this
    lexer [failbit] is only ever raised on a stream whose [eofbit] is already
    up (or together with it), and [putback] is only called right after a
    successful [get], so [good()] coincides with [!eof()] and [failbit] is not
    tracked separately. *)
Record istream : Type := mk_istream { buf : list ascii; eofbit : bool }.

Definition stringstream (line : list ascii) : istream := mk_istream line false.

Definition eof (s : istream) : bool := eofbit s.

Definition peek (s : istream) : int * istream :=
  if eofbit s then (EOF, s)
  else match buf s with
       | [] => (EOF, mk_istream [] true)
       | c :: _ => (byte_int c, s)
       end.

Definition get (s : istream) : int * istream :=
  if eofbit s then (EOF, s)
  else match buf s with
       | [] => (EOF, mk_istream [] true)
       | c :: rest => (byte_int c, mk_istream rest false)
       end.

Definition ignore (s : istream) : istream := snd (get s).

(** [putback] on a good stream, giving back the character just read. *)
Definition putback (s : istream) (c : ascii) : istream :=
  if eofbit s then s else mk_istream (c :: buf s) false.

(** ** <cctype> in the "C" locale *)

Definition isdigit (z : int) : bool := (48 <=? z) && (z <=? 57).
Definition isalpha (z : int) : bool :=
  ((65 <=? z) && (z <=? 90)) || ((97 <=? z) && (z <=? 122)).
Definition isalnum (z : int) : bool := isalpha z || isdigit z.

(** ** Tokens *)

Module token_type.
Inductive Token : Type :=
  | Number (value : Z)
  | Id (value : string)
  | Char (value : ascii)
  | String (value : string)
  | Class | Return | If | Else | Def | Newline | Print | Indent | Dedent
  | And | Or | Not | Eq | NotEq | LessOrEq | GreaterOrEq
  | None | True | False | Eof.
End token_type.
Abbreviation Token := token_type.Token.

Definition ch (n : N) : ascii := ascii_of_N n.

Definition c_space : ascii := ch 32.
Definition c_hash : ascii := ch 35.
Definition c_dquote : ascii := ch 34.
Definition c_squote : ascii := ch 39.
Definition c_backslash : ascii := ch 92.
Definition c_newline : ascii := ch 10.
Definition c_tab : ascii := ch 9.
Definition c_underscore : ascii := ch 95.
Definition c_equals : ascii := ch 61.
Definition c_minus1 : ascii := ch 255.

(** KEY_WORDS_TOKEN *)
Definition KEY_WORDS_TOKEN (word : string) : option Token :=
  if String.eqb word "class" then Some token_type.Class
  else if String.eqb word "return" then Some token_type.Return
  else if String.eqb word "if" then Some token_type.If
  else if String.eqb word "else" then Some token_type.Else
  else if String.eqb word "def" then Some token_type.Def
  else if String.eqb word "print" then Some token_type.Print
  else if String.eqb word "and" then Some token_type.And
  else if String.eqb word "or" then Some token_type.Or
  else if String.eqb word "not" then Some token_type.Not
  else if String.eqb word "None" then Some token_type.None
  else if String.eqb word "True" then Some token_type.True
  else if String.eqb word "False" then Some token_type.False
  else Datatypes.None.

(** SPECIAL_OPERATORS_TOKEN.at(sign): [at] throws [std::out_of_range] on a
    missing key. *)
Definition SPECIAL_OPERATORS_TOKEN (sign : string) : option Token :=
  if String.eqb sign "==" then Some token_type.Eq
  else if String.eqb sign "!=" then Some token_type.NotEq
  else if String.eqb sign "<=" then Some token_type.LessOrEq
  else if String.eqb sign ">=" then Some token_type.GreaterOrEq
  else Datatypes.None.

(** SPECIAL_OPERATORS = {'=', '!', '<', '>'} *)
Definition SPECIAL_OPERATORS (c : ascii) : bool :=
  existsb (Ascii.eqb c) [ch 61; ch 33; ch 60; ch 62].

(** SPECIAL_SYMBOLS (lexer.h): single quote, double quote, n, t *)
Definition SPECIAL_SYMBOLS (c : ascii) : bool :=
  existsb (Ascii.eqb c) [c_squote; c_dquote; ch 110; ch 116].

Definition IsSpecialChar (c : ascii) : bool :=
  existsb (Ascii.eqb c)
    [ch 46; ch 44; ch 40; ch 43; ch 41; ch 45; ch 42; ch 47; ch 58;
     ch 64; ch 37; ch 36; ch 94; ch 38; ch 59; ch 63; ch 61; ch 60;
     ch 62; ch 33; ch 123; ch 125; ch 91; ch 93].

(** bool StringIsComment(std::string_view) *)
Fixpoint StringIsComment (str : list ascii) : bool :=
  match str with
  | [] => true
  | c :: rest =>
      if negb (Ascii.eqb c c_space)
      then (if Ascii.eqb c c_hash then true else false)
      else StringIsComment rest
  end.

(** ** ReadString

    The body of the [while (!input.eof())] loop of [ReadString], entered on a
    good stream whose unread characters are [b]; every iteration extracts at
    least one character, so the loop is a structural recursion on [b].  The
    result is the accumulated string, the last value of [c] and the stream. *)
Fixpoint ReadString_loop (pred : ascii -> bool) (b : list ascii)
    (result : list ascii) : list ascii * ascii * istream :=
  match b with
  | [] =>
      (* get() hits the end: c = (char)EOF, eofbit is set *)
      let c := to_char EOF in
      if negb (pred c) then (result, c, mk_istream [] true)
      else if Ascii.eqb c c_backslash then (result, c, mk_istream [] true)
      else (result ++ [c], c, mk_istream [] true)
  | c :: rest =>
      if negb (pred c) then (result, c, mk_istream rest false)
      else if Ascii.eqb c c_backslash then
        match rest with
        | [] => (result, c, mk_istream [] true)
        | e :: rest' =>
            if SPECIAL_SYMBOLS e then
              let e' := if Ascii.eqb e (ch 110) then c_newline
                        else if Ascii.eqb e (ch 116) then c_tab
                        else e in
              ReadString_loop pred rest' (result ++ [e'])
            else ReadString_loop pred rest' result
        end
      else ReadString_loop pred rest (result ++ [c])
  end.

Definition ReadString (input : istream) (pred : ascii -> bool)
    : list ascii * istream :=
  if eof input then ([], input)
  else
    let '(result, c, input') := ReadString_loop pred (buf input) [] in
    if negb (Ascii.eqb c c_minus1) && negb (pred c)
       && negb (Ascii.eqb c c_squote) && negb (Ascii.eqb c c_dquote)
    then (result, putback input' c)
    else (result, input').

(** ** The lexer object *)

Definition size_t_mod : Z := 2 ^ 64.
Definition size_t_wrap (z : Z) : Z := z mod size_t_mod.

Record Lexer : Type := mk_Lexer {
  current_token_ : Token;
  current_token_index_ : nat;
  tokens_ : list Token;
  indent_size_ : Z
}.

Definition push_back (L : Lexer) (t : Token) : Lexer :=
  mk_Lexer (current_token_ L) (current_token_index_ L)
           (tokens_ L ++ [t]) (indent_size_ L).

Definition set_indent (L : Lexer) (n : Z) : Lexer :=
  mk_Lexer (current_token_ L) (current_token_index_ L) (tokens_ L) n.

(** What running a piece of the lexer gives: a value, a C++ exception that
    leaves the constructor, or no result within the fuel. *)
Inductive LexResult (A : Type) : Type :=
  | LexOk (a : A)
  | LexThrow (what : string)
  | LexDiverge.
Arguments LexOk {A} a.
Arguments LexThrow {A} what.
Arguments LexDiverge {A}.

Definition INT_MAX : Z := 2147483647.

(** std::stoi on the digits read by [LoadNumber]. *)
Fixpoint stoi_digits (acc : Z) (s : list ascii) : Z :=
  match s with
  | [] => acc
  | d :: rest => stoi_digits (10 * acc + (byte_int d - 48)) rest
  end.

Definition stoi (s : list ascii) : LexResult Z :=
  match s with
  | [] => LexThrow "stoi: invalid argument"
  | _ => let v := stoi_digits 0 s in
         if v <=? INT_MAX then LexOk v else LexThrow "stoi: out of range"
  end.

Definition LoadChar (L : Lexer) (c : ascii) : Lexer :=
  push_back L (token_type.Char c).

Definition LoadEof (L : Lexer) : Lexer := push_back L token_type.Eof.

Definition LoadNumber (input : istream) (L : Lexer) : LexResult (istream * Lexer) :=
  let '(number, input) := ReadString input (fun c => isdigit (of_char c)) in
  match stoi number with
  | LexOk v => LexOk (input, push_back L (token_type.Number v))
  | LexThrow w => LexThrow w
  | LexDiverge => LexDiverge
  end.

Definition LoadString (input : istream) (L : Lexer) : istream * Lexer :=
  let '(e, input) := get input in
  let '(dest, input) := ReadString input (fun c => negb (of_char c =? e)) in
  (input, push_back L (token_type.String (string_of_list_ascii dest))).

Definition LoadWord (input : istream) (L : Lexer) : istream * Lexer :=
  let '(w, input) :=
    ReadString input
      (fun c => Ascii.eqb c c_underscore || isalnum (of_char c)) in
  let word := string_of_list_ascii w in
  match KEY_WORDS_TOKEN word with
  | Some t => (input, push_back L t)
  | Datatypes.None => (input, push_back L (token_type.Id word))
  end.

Definition LoadSign (input : istream) (L : Lexer) : LexResult (istream * Lexer) :=
  let '(f, input) := get input in
  let first := to_char f in
  let '(p, input) := peek input in
  if p =? byte_int c_equals then
    let '(s, input) := get input in
    let second := to_char s in
    match SPECIAL_OPERATORS_TOKEN (string_of_list_ascii [first; second]) with
    | Some t => LexOk (input, push_back L t)
    | Datatypes.None => LexThrow "unordered_map::at"
    end
  else LexOk (input, LoadChar L first).

Definition is_Newline (t : Token) : bool :=
  match t with token_type.Newline => true | _ => false end.

Definition LoadEndl (L : Lexer) : Lexer :=
  match last (tokens_ L) with
  | Some t => if negb (is_Newline t) then push_back L token_type.Newline else L
  | Datatypes.None => L
  end.

(** while (indent_size_ > current_indent) { indent_size_ -= 2; push Dedent } *)
Fixpoint LoadDedent (fuel : nat) (current_indent : Z) (L : Lexer) : LexResult Lexer :=
  if indent_size_ L >? current_indent then
    match fuel with
    | O => LexDiverge
    | S fuel' =>
        LoadDedent fuel' current_indent
          (push_back (set_indent L (size_t_wrap (indent_size_ L - 2)))
                     token_type.Dedent)
    end
  else LexOk L.

(** while (indent_size_ < current_indent) { indent_size_ += 2; push Indent } *)
Fixpoint LoadIndent (fuel : nat) (current_indent : Z) (L : Lexer) : LexResult Lexer :=
  if indent_size_ L <? current_indent then
    match fuel with
    | O => LexDiverge
    | S fuel' =>
        LoadIndent fuel' current_indent
          (push_back (set_indent L (size_t_wrap (indent_size_ L + 2)))
                     token_type.Indent)
    end
  else LexOk L.

(** The do-while of [LoadTab]: entered with peek() == ' '; counts and drops
    the leading spaces.  One space is dropped per iteration, so the loop is a
    structural recursion on the unread characters. *)
Fixpoint LoadTab_spaces (b : list ascii) (i : Z) : Z * istream :=
  match b with
  | [] => (i, mk_istream [] true)
  | c :: rest =>
      if Ascii.eqb c c_space then LoadTab_spaces rest (size_t_wrap (i + 1))
      else (i, mk_istream b false)
  end.

Definition LoadTab (fuel : nat) (input : istream) (L : Lexer)
    : LexResult (istream * Lexer) :=
  let '(p, input) := peek input in
  if p =? byte_int c_space then
    let '(i, input) := LoadTab_spaces (buf input) 0 in
    match (if i >? indent_size_ L then LoadIndent fuel i L
           else LoadDedent fuel i L) with
    | LexOk L' => LexOk (input, L')
    | LexThrow w => LexThrow w
    | LexDiverge => LexDiverge
    end
  else
    match LoadDedent fuel 0 L with
    | LexOk L' => LexOk (input, L')
    | LexThrow w => LexThrow w
    | LexDiverge => LexDiverge
    end.

(** One pass through the body of the [while (!input.eof())] loop of
    [LoadTokens]; [true] in the result means the loop was left by [break].
    A condition that calls [peek] twice is written with one call: a second
    [peek] returns the same value and leaves the stream as it is. *)
Definition LoadTokens_body (input : istream) (L : Lexer)
    : LexResult (bool * istream * Lexer) :=
  let '(p, input) := peek input in
  let input := if p =? byte_int c_space then ignore input else input in
  let '(p, input) := peek input in
  if p =? byte_int c_hash then LexOk (true, input, L)
  else
    let '(p, input) := peek input in
    match (if isdigit p then LoadNumber input L else LexOk (input, L)) with
    | LexThrow w => LexThrow w
    | LexDiverge => LexDiverge
    | LexOk (input, L) =>
        let '(p, input) := peek input in
        let '(input, L) :=
          if (p =? byte_int c_dquote) || (p =? byte_int c_squote)
          then LoadString input L else (input, L) in
        let '(p, input) := peek input in
        let '(input, L) :=
          if (p =? byte_int c_underscore) || isalpha p
          then LoadWord input L else (input, L) in
        let '(p, input) := peek input in
        if IsSpecialChar (to_char p) then
          let '(p, input) := peek input in
          if SPECIAL_OPERATORS (to_char p) then
            match LoadSign input L with
            | LexOk (input, L) => LexOk (false, input, L)
            | LexThrow w => LexThrow w
            | LexDiverge => LexDiverge
            end
          else
            let '(g, input) := get input in
            LexOk (false, input, LoadChar L (to_char g))
        else LexOk (false, input, L)
    end.

Fixpoint LoadTokens (fuel : nat) (input : istream) (L : Lexer) : LexResult Lexer :=
  if eof input then LexOk L
  else
    match fuel with
    | O => LexDiverge
    | S fuel' =>
        match LoadTokens_body input L with
        | LexOk (true, _, L') => LexOk L'
        | LexOk (false, input', L') => LoadTokens fuel' input' L'
        | LexThrow w => LexThrow w
        | LexDiverge => LexDiverge
        end
    end.

Definition ParseString (fuel : nat) (input : istream) (L : Lexer) : LexResult Lexer :=
  match LoadTab fuel input L with
  | LexOk (input, L) => LoadTokens fuel input L
  | LexThrow w => LexThrow w
  | LexDiverge => LexDiverge
  end.

Definition NextToken (L : Lexer) : Lexer :=
  match nth_error (tokens_ L) (current_token_index_ L) with
  | Some t => mk_Lexer t (S (current_token_index_ L)) (tokens_ L) (indent_size_ L)
  | Datatypes.None => L
  end.

Definition CurrentToken (L : Lexer) : Token := current_token_ L.

(** [getline(input, line)] applied until it fails: the lines of the input.
    [line] collects the current line in reverse, [extracted] records whether
    [getline] has extracted anything since the last line feed. *)
Fixpoint getlines (input : list ascii) (line : list ascii) (extracted : bool)
    : list (list ascii) :=
  match input with
  | [] => if extracted then [rev line] else []
  | c :: rest =>
      if Ascii.eqb c c_newline then rev line :: getlines rest [] false
      else getlines rest (c :: line) true
  end.

(** The [while (getline(input, line))] loop of [ParseTextOnTokens]. *)
Fixpoint ParseLines (fuel : nat) (lines : list (list ascii)) (L : Lexer)
    : LexResult Lexer :=
  match lines with
  | [] => LexOk L
  | line :: rest =>
      if negb (StringIsComment line) then
        match ParseString fuel (stringstream line) L with
        | LexOk L' => ParseLines fuel rest (LoadEndl L')
        | LexThrow w => LexThrow w
        | LexDiverge => LexDiverge
        end
      else ParseLines fuel rest L
  end.

Definition ParseTextOnTokens (fuel : nat) (input : list ascii) (L : Lexer)
    : LexResult Lexer :=
  match ParseLines fuel (getlines input [] false) L with
  | LexOk L =>
      match LoadDedent fuel 0 L with
      | LexOk L => LexOk (NextToken (LoadEof L))
      | LexThrow w => LexThrow w
      | LexDiverge => LexDiverge
      end
  | LexThrow w => LexThrow w
  | LexDiverge => LexDiverge
  end.

(** Lexer::Lexer(std::istream&): a default-constructed token (the variant's
    first alternative), no tokens, indent 0, then [ParseTextOnTokens]. *)
Definition Lexer_new (fuel : nat) (input : string) : LexResult Lexer :=
  ParseTextOnTokens fuel (list_ascii_of_string input)
    (mk_Lexer (token_type.Number 0) 0%nat [] 0).

(** The token vector the constructor leaves behind. *)
Definition lex (fuel : nat) (input : string) : LexResult (list Token) :=
  match Lexer_new fuel input with
  | LexOk L => LexOk (tokens_ L)
  | LexThrow w => LexThrow w
  | LexDiverge => LexDiverge
  end.

End parse.


(* ===================================================================== *)
(** * AST nodes (the classes of namespace ast) *)
(* ===================================================================== *)

(** Address of a [ClassInstance] object. *)
Definition loc := nat.

Module statement.

(** The comparators of runtime.cpp a [Comparison] node is built with. *)
Inductive Comparator : Type :=
  | CmpEqual | CmpNotEqual | CmpLess | CmpGreater
  | CmpLessOrEqual | CmpGreaterOrEqual.

(** One constructor per node class.  Operands held by a possibly null
    [unique_ptr] that the code tests before use are [option]s.
    A [NewInstance] node owns a [ClassInstance] member [cls_] (the code calls
    [ClassInstance::HasMethod] and [ClassInstance::Call] on it); the member
    is an object of the store and the node holds its address.

    [ClassDefinition] is left out: none of the properties below executes
    one, and classes reach the nodes through the instances in the store.

    Modelled from the spec: the literal nodes [NumericConst], [StringConst],
    [BoolConst] and [NoneConst] (section 3, expressions NumberLit, StringLit,
    BoolLit, NoneLit), whose classes are declared in statement.h. *)
Inductive Statement : Type :=
  | NumericConst (value : Z)
  | StringConst (value : string)
  | BoolConst (value : bool)
  | NoneConst
  | VariableValue (dotted_ids_ : list string)
  | Assignment (var_ : string) (rv_ : Statement)
  | FieldAssignment (object_ : list string) (field_name_ : string) (rv_ : Statement)
  | NewInstance (cls_ : loc) (args_ : list Statement)
  | MethodCall (object_ : Statement) (method_name_ : string) (args_ : list Statement)
  | Compound (statements_ : list Statement)
  | Return (statement_ : Statement)
  | MethodBody (body_ : Statement)
  | Print (args_ : list Statement)
  | Stringify (argument_ : Statement)
  | Add (lhs_ rhs_ : option Statement)
  | Sub (lhs_ rhs_ : option Statement)
  | Mult (lhs_ rhs_ : option Statement)
  | Div (lhs_ rhs_ : option Statement)
  | Or (lhs_ rhs_ : option Statement)
  | And (lhs_ rhs_ : option Statement)
  | Not (argument_ : option Statement)
  | Comparison (cmp_ : Comparator) (lhs_ rhs_ : option Statement)
  | IfElse (condition_ if_body_ : Statement) (else_body_ : option Statement).

End statement.
Abbreviation Statement := statement.Statement.

(* ===================================================================== *)
(** * Runtime (namespace runtime) *)
(* ===================================================================== *)

Module runtime.

(** struct Method *)
Record Method : Type := mk_Method {
  name : string;
  formal_params : list string;
  body : Statement
}.

(** class Class: name, methods in declaration order, parent (or null). *)
Inductive Class : Type :=
  | mk_Class (name_ : string) (methods_ : list Method) (parent_ : option Class).

Definition GetName (c : Class) : string :=
  match c with mk_Class n _ _ => n end.
Definition methods_ (c : Class) : list Method :=
  match c with mk_Class _ ms _ => ms end.
Definition parent_ (c : Class) : option Class :=
  match c with mk_Class _ _ p => p end.

(** What a non-empty holder points to.  [Number], [String], [Bool] and
    [Class] objects are never modified, so a holder of one is modelled by the
    object; a holder of a [ClassInstance] is the address of the instance in
    the store, which is what owning and sharing holders have in common. *)
Inductive Object : Type :=
  | Number (value : Z)
  | String (value : string)
  | Bool (value : bool)
  | Class_ (cls : Class)
  | ClassInstance (addr : loc).

(** ObjectHolder: empty, or pointing to an object. *)
Definition ObjectHolder : Type := option Object.

(** using Closure = std::unordered_map<std::string, ObjectHolder> *)
Abbreviation Closure := (gmap string ObjectHolder).

(** The data members of a [ClassInstance]. *)
Record Instance : Type := mk_Instance {
  cls_ : Class;
  closure_ : Closure
}.

(** The mutable world of an execution: the [ClassInstance] objects by
    address (objects are never removed: reference counts are not modelled)
    and the characters written to the output stream of the [Context]. *)
Record State : Type := mk_State {
  heap : list Instance;
  out : string
}.

(** ** Results: values and C++ exceptions *)

Inductive Exception : Type :=
  | runtime_error (what : string)
  | RuntimeReturnExeption (obj_ : ObjectHolder).

Inductive Result (A : Type) : Type :=
  | Returns (a : A)
  | Throws (e : Exception)
  | OutOfFuel
  | Undefined.
Arguments Returns {A} a.
Arguments Throws {A} e.
Arguments OutOfFuel {A}.
Arguments Undefined {A}.

(** Computations over a mutable world [S]. *)
Definition M (S A : Type) : Type := S -> S * Result A.

Definition ret {S A} (a : A) : M S A := fun s => (s, Returns a).

Definition bind {S A B} (m : M S A) (k : A -> M S B) : M S B :=
  fun s =>
    match m s with
    | (s', Returns a) => k a s'
    | (s', Throws e) => (s', Throws e)
    | (s', OutOfFuel) => (s', OutOfFuel)
    | (s', Undefined) => (s', Undefined)
    end.

Definition throw {S A} (e : Exception) : M S A := fun s => (s, Throws e).
Definition undefined {S A} : M S A := fun s => (s, Undefined).
Definition out_of_fuel {S A} : M S A := fun s => (s, OutOfFuel).

Declare Scope monad_scope.
Delimit Scope monad_scope with monad.
Notation "x <- m ;; k" := (bind m (fun x => k))
  (at level 100, m at level 99, k at level 200, right associativity) : monad_scope.
Notation "m ;;; k" := (bind m (fun _ => k))
  (at level 100, k at level 200, right associativity) : monad_scope.
Local Open Scope monad_scope.

(** An execution frame: the closure passed by reference and the world. *)
Definition Env : Type := Closure * State.

Definition lift {A} (m : M State A) : M Env A :=
  fun e =>
    let '(st', r) := m (snd e) in ((fst e, st'), r).

Definition STR_METHOD : string := "__str__".
Definition EQ_METHOD : string := "__eq__".
Definition LT_METHOD : string := "__lt__".

(** ** Holders *)

Definition TryAs_Number (h : ObjectHolder) : option Z :=
  match h with Some (Number v) => Some v | _ => None end.
Definition TryAs_String (h : ObjectHolder) : option string :=
  match h with Some (String v) => Some v | _ => None end.
Definition TryAs_Bool (h : ObjectHolder) : option bool :=
  match h with Some (Bool v) => Some v | _ => None end.
Definition TryAs_ClassInstance (h : ObjectHolder) : option loc :=
  match h with Some (ClassInstance l) => Some l | _ => None end.

(** ObjectHolder::operator bool *)
Definition is_set (h : ObjectHolder) : bool :=
  match h with Some _ => true | None => false end.

(** bool IsTrue(const ObjectHolder&) *)
Definition IsTrue (object : ObjectHolder) : bool :=
  match TryAs_Bool object with
  | Some b => b
  | None =>
      match TryAs_Number object with
      | Some n => negb (n =? 0)
      | None =>
          match TryAs_String object with
          | Some s => negb (String.eqb s "")
          | None => false
          end
      end
  end.

(** ** Classes and instances *)

(** const Method* Class::GetMethod(const std::string& name) const *)
Fixpoint GetMethod (c : Class) (method : string) : option Method :=
  match c with
  | mk_Class _ ms p =>
      match find (fun m => String.eqb (name m) method) ms with
      | Some m => Some m
      | None =>
          match p with
          | Some parent => GetMethod parent method
          | None => None
          end
      end
  end.

(** bool ClassInstance::HasMethod(const std::string&, size_t) const *)
Definition HasMethod (self : Instance) (method : string) (argument_count : nat) : bool :=
  match GetMethod (cls_ self) method with
  | Some method_ptr => Nat.eqb (length (formal_params method_ptr)) argument_count
  | None => false
  end.

(** ClassInstance::ClassInstance(const Class& cls) *)
Definition ClassInstance_new (cls : Class) : Instance := mk_Instance cls ∅.

(** [unordered_map::emplace]: no effect when the key is present. *)
Definition emplace (k : string) (v : ObjectHolder) (m : Closure) : Closure :=
  match m !! k with
  | Some _ => m
  | None => <[k := v]> m
  end.

(** for (i < actual_args.size()) closure.emplace(formal_params.at(i), actual_args[i]) *)
Fixpoint emplace_args (params : list string) (actual_args : list ObjectHolder)
    (m : Closure) : Closure :=
  match params, actual_args with
  | p :: ps, a :: as_ => emplace_args ps as_ (emplace p a m)
  | _, _ => m
  end.

(** [ObjectHolder::Own]: the object gets a place of its own in the store. *)
Definition Own_instance (i : Instance) : M State ObjectHolder :=
  fun st =>
    (mk_State (heap st ++ [i]) (out st),
     Returns (Some (ClassInstance (length (heap st))))).

Definition write (s : string) : M State unit :=
  fun st => (mk_State (heap st) (out st ++ s)%string, Returns tt).

Definition instance_at (l : loc) : M State Instance :=
  fun st =>
    match heap st !! l with
    | Some i => (st, Returns i)
    | None => (st, Undefined)
    end.

(** Modelled from the spec: the text [os << value] writes for a [Number]
    (section 4.1, Printing: base-10 digits); [ValueObject::Print] is declared
    in runtime.h. *)
Definition print_int (v : Z) : string := NilZero.string_of_int (Z.to_int v).

(** [os << this]: the address of the instance, in an implementation-defined
    form. *)
Definition print_pointer (l : loc) : string :=
  ("0x" ++ NilZero.string_of_uint (Nat.to_uint l))%string.

Section WithExecutable.

(** [Executable::Execute], the virtual call behind [method.body]. *)
Variable Execute : Statement -> M Env ObjectHolder.

(** ObjectHolder ClassInstance::Call(method, actual_args, context) *)
Definition Call (self : loc) (method : string) (actual_args : list ObjectHolder)
    : M State ObjectHolder :=
  this <- instance_at self ;;
  if HasMethod this method (length actual_args) then
    match GetMethod (cls_ this) method with
    | Some method_ptr =>
        let closure := emplace_args (formal_params method_ptr) actual_args ∅ in
        let closure := emplace "self" (Some (ClassInstance self)) closure in
        fun st =>
          let '((_, st'), result) := Execute (body method_ptr) (closure, st) in
          (st', result)
    | None => undefined
    end
  else throw (runtime_error "Nothing to call").

(** [Object::Print(os, context)] for each kind of object, with [os] the
    output stream of [context].  Printing an instance prints what its
    [__str__] returns, which may again be an instance. *)
Fixpoint Object_Print (fuel : nat) (obj : Object) : M State unit :=
  match obj with
  | Number v => write (print_int v)
  | String v => write v
  | Bool v => write (if v then "True" else "False")
  | Class_ c => write ("Class " ++ GetName c)
  | ClassInstance self =>
      this <- instance_at self ;;
      if HasMethod this STR_METHOD 0 then
        obj <- Call self STR_METHOD [] ;;
        match obj with
        | Some obj_ptr =>
            match fuel with
            | O => out_of_fuel
            | S fuel' => Object_Print fuel' obj_ptr
            end
        | None => ret tt
        end
      else write (print_pointer self)
  end.

(** The test [lhs_ptr != nullptr && lhs_ptr->HasMethod(method, 1)]. *)
Definition instance_has (h : ObjectHolder) (method : string) : M State (option loc) :=
  match TryAs_ClassInstance h with
  | Some l =>
      this <- instance_at l ;;
      ret (if HasMethod this method 1 then Some l else None)
  | None => ret None
  end.

(** bool Equal(lhs, rhs, context) *)
Definition Equal (lhs rhs : ObjectHolder) : M State bool :=
  if negb (is_set lhs) && negb (is_set rhs) then ret true
  else
    match TryAs_Number lhs, TryAs_Number rhs with
    | Some a, Some b => ret (a =? b)
    | _, _ =>
    match TryAs_String lhs, TryAs_String rhs with
    | Some a, Some b => ret (String.eqb a b)
    | _, _ =>
    match TryAs_Bool lhs, TryAs_Bool rhs with
    | Some a, Some b => ret (Bool.eqb a b)
    | _, _ =>
        lhs_ptr <- instance_has lhs EQ_METHOD ;;
        match lhs_ptr with
        | Some l => r <- Call l EQ_METHOD [rhs] ;; ret (IsTrue r)
        | None => throw (runtime_error "Cannot compare objects")
        end
    end end end.

(** bool Less(lhs, rhs, context) *)
Definition Less (lhs rhs : ObjectHolder) : M State bool :=
  if negb (is_set lhs) && negb (is_set rhs)
  then throw (runtime_error "Cannot compare objects for less")
  else
    match TryAs_Number lhs, TryAs_Number rhs with
    | Some a, Some b => ret (a <? b)
    | _, _ =>
    match TryAs_String lhs, TryAs_String rhs with
    | Some a, Some b => ret (String.ltb a b)
    | _, _ =>
    match TryAs_Bool lhs, TryAs_Bool rhs with
    | Some a, Some b => ret (negb a && b)
    | _, _ =>
        lhs_ptr <- instance_has lhs LT_METHOD ;;
        match lhs_ptr with
        | Some l => r <- Call l LT_METHOD [rhs] ;; ret (IsTrue r)
        | None => throw (runtime_error "Cannot compare objects for less")
        end
    end end end.

(** bool NotEqual(lhs, rhs, context) { return !Equal(lhs, rhs, context); } *)
Definition NotEqual (lhs rhs : ObjectHolder) : M State bool :=
  e <- Equal lhs rhs ;; ret (negb e).

(** return Less(lhs, rhs, context) || Equal(lhs, rhs, context); *)
Definition LessOrEqual (lhs rhs : ObjectHolder) : M State bool :=
  l <- Less lhs rhs ;;
  if l then ret true else Equal lhs rhs.

(** return !LessOrEqual(lhs, rhs, context); *)
Definition Greater (lhs rhs : ObjectHolder) : M State bool :=
  le <- LessOrEqual lhs rhs ;; ret (negb le).

(** return !Less(lhs, rhs, context); *)
Definition GreaterOrEqual (lhs rhs : ObjectHolder) : M State bool :=
  l <- Less lhs rhs ;; ret (negb l).

End WithExecutable.

End runtime.

(* ===================================================================== *)
(** * Execution of the AST (namespace ast, statement.cpp) *)
(* ===================================================================== *)

Module ast.
Import statement runtime.
Local Open Scope monad_scope.

Definition ADD_METHOD : string := "__add__".
Definition INIT_METHOD : string := "__init__".

(** Arithmetic on [int]: overflow of a signed [int] is undefined in C++; it
    is modelled as the two's-complement wrap-around of the usual targets. *)
Definition wrap_int (z : Z) : Z := (z + 2 ^ 31) mod 2 ^ 32 - 2 ^ 31.

Definition endl : string := Strings.String.String (ascii_of_N 10) EmptyString.

(** closure[k] = h, on the closure [Execute] received by reference. *)
Definition closure_store (k : string) (h : ObjectHolder) : M Env unit :=
  fun e => ((<[k := h]> (fst e), snd e), Returns tt).

(** class_inst_ptr->Fields()[field_name_] = value *)
Definition Fields_store (l : loc) (field_name : string) (h : ObjectHolder)
    : M State unit :=
  fun st =>
    match heap st !! l with
    | Some i =>
        (mk_State (<[l := mk_Instance (cls_ i) (<[field_name := h]> (closure_ i))]> (heap st))
                  (out st),
         Returns tt)
    | None => (st, Undefined)
    end.

(** The loop of [VariableValue::Execute]: [closure_ptr] starts at the frame's
    closure and moves into the fields of the instances on the path. *)
Fixpoint VariableValue_walk (st : State) (dotted_ids : list string)
    (closure_ptr : Closure) : Result ObjectHolder :=
  match dotted_ids with
  | [] => Returns None
  | field_name :: rest =>
      match closure_ptr !! field_name with
      | None => Throws (runtime_error "Cant find var")
      | Some h =>
          match rest with
          | [] => Returns h
          | _ :: _ =>
              match TryAs_ClassInstance h with
              | None => Throws (runtime_error "This isn't object")
              | Some l =>
                  match heap st !! l with
                  | Some ptr_obj => VariableValue_walk st rest (closure_ ptr_obj)
                  | None => Undefined
                  end
              end
          end
      end
  end.

Definition VariableValue_Execute (dotted_ids : list string) : M Env ObjectHolder :=
  fun e => (e, VariableValue_walk (snd e) dotted_ids (fst e)).

(** The [DummyContext] of [Stringify]: the printing runs against an output
    stream of its own, whose text is the result. *)
Definition with_DummyContext (m : M State unit) : M State string :=
  fun st =>
    match m (mk_State (heap st) "") with
    | (st', Returns _) => (mk_State (heap st') (out st), Returns (out st'))
    | (st', Throws e) => (mk_State (heap st') (out st), Throws e)
    | (st', OutOfFuel) => (mk_State (heap st') (out st), OutOfFuel)
    | (st', Undefined) => (mk_State (heap st') (out st), Undefined)
    end.

Section Nodes.

(** [Execute] of the child nodes, and the fuel left for printing. *)
Variable Execute : Statement -> M Env ObjectHolder.
Variable fuel : nat.

(** for (arg : args_) actual_args.push_back(arg->Execute(closure, context)) *)
Fixpoint Execute_args (args : list Statement) : M Env (list ObjectHolder) :=
  match args with
  | [] => ret []
  | arg :: rest =>
      h <- Execute arg ;;
      hs <- Execute_args rest ;;
      ret (h :: hs)
  end.

Definition Assignment_Execute (var_ : string) (rv_ : Statement) : M Env ObjectHolder :=
  h <- Execute rv_ ;;
  closure_store var_ h ;;;
  ret h.

Definition FieldAssignment_Execute (object_ : list string) (field_name_ : string)
    (rv_ : Statement) : M Env ObjectHolder :=
  obj <- VariableValue_Execute object_ ;;
  match TryAs_ClassInstance obj with
  | Some class_inst_ptr =>
      h <- Execute rv_ ;;
      lift (Fields_store class_inst_ptr field_name_ h) ;;;
      ret h
  | None => throw (runtime_error "Cant find field")
  end.

Definition NewInstance_Execute (cls_ : loc) (args_ : list Statement) : M Env ObjectHolder :=
  actual_args <- Execute_args args_ ;;
  this <- lift (instance_at cls_) ;;
  (if HasMethod this INIT_METHOD (length args_)
   then lift (Call Execute cls_ INIT_METHOD actual_args) ;;; ret tt
   else ret tt) ;;;
  copy <- lift (instance_at cls_) ;;
  lift (Own_instance copy).

Definition MethodCall_Execute (object_ : Statement) (method_name_ : string)
    (args_ : list Statement) : M Env ObjectHolder :=
  obj <- Execute object_ ;;
  match TryAs_ClassInstance obj with
  | Some class_instance_ptr =>
      this <- lift (instance_at class_instance_ptr) ;;
      if HasMethod this method_name_ (length args_) then
        actual_args <- Execute_args args_ ;;
        lift (Call Execute class_instance_ptr method_name_ actual_args)
      else ret None
  | None => ret None
  end.

Fixpoint Compound_Execute (statements_ : list Statement) : M Env ObjectHolder :=
  match statements_ with
  | [] => ret None
  | stmt :: rest => Execute stmt ;;; Compound_Execute rest
  end.

Definition Return_Execute (statement_ : Statement) : M Env ObjectHolder :=
  h <- Execute statement_ ;;
  throw (RuntimeReturnExeption h).

(** try { body_->Execute } catch (RuntimeReturnExeption&) { return value }
    return {} *)
Definition MethodBody_Execute (body_ : Statement) : M Env ObjectHolder :=
  fun e =>
    match Execute body_ e with
    | (e', Returns _) => (e', Returns None)
    | (e', Throws (RuntimeReturnExeption h)) => (e', Returns h)
    | (e', Throws (runtime_error w)) => (e', Throws (runtime_error w))
    | (e', OutOfFuel) => (e', OutOfFuel)
    | (e', Undefined) => (e', Undefined)
    end.

Fixpoint Print_loop (first_arg : bool) (args : list Statement) : M Env unit :=
  match args with
  | [] => ret tt
  | arg :: rest =>
      (if negb first_arg then lift (write " ") else ret tt) ;;;
      obj <- Execute arg ;;
      match obj with
      | Some o => lift (Object_Print Execute fuel o)
      | None => lift (write "None")
      end ;;;
      Print_loop false rest
  end.

Definition Print_Execute (args_ : list Statement) : M Env ObjectHolder :=
  Print_loop true args_ ;;;
  lift (write endl) ;;;
  ret None.

Definition Stringify_Execute (argument_ : Statement) : M Env ObjectHolder :=
  obj <- Execute argument_ ;;
  match obj with
  | None => ret (Some (String "None"))
  | Some o =>
      s <- lift (with_DummyContext (Object_Print Execute fuel o)) ;;
      ret (Some (String s))
  end.

Definition null_operands : M Env ObjectHolder :=
  throw (runtime_error "null operands are not supported").

Definition Add_Execute (lhs_ rhs_ : option Statement) : M Env ObjectHolder :=
  match lhs_, rhs_ with
  | Some lhs, Some rhs =>
      obj_lhs <- Execute lhs ;;
      obj_rhs <- Execute rhs ;;
      match TryAs_Number obj_lhs, TryAs_Number obj_rhs with
      | Some l_num, Some r_num => ret (Some (Number (wrap_int (l_num + r_num))))
      | _, _ =>
      match TryAs_String obj_lhs, TryAs_String obj_rhs with
      | Some l_str, Some r_str => ret (Some (String (l_str ++ r_str)))
      | _, _ =>
          ptr <- lift (instance_has obj_lhs ADD_METHOD) ;;
          match ptr with
          | Some l => lift (Call Execute l ADD_METHOD [obj_rhs])
          | None => throw (runtime_error "incorrect add operands")
          end
      end end
  | _, _ => null_operands
  end.

Definition Sub_Execute (lhs_ rhs_ : option Statement) : M Env ObjectHolder :=
  match lhs_, rhs_ with
  | Some lhs, Some rhs =>
      obj_lhs <- Execute lhs ;;
      obj_rhs <- Execute rhs ;;
      match TryAs_Number obj_lhs, TryAs_Number obj_rhs with
      | Some l_num, Some r_num => ret (Some (Number (wrap_int (l_num - r_num))))
      | _, _ => throw (runtime_error "incorrect sub operands")
      end
  | _, _ => null_operands
  end.

Definition Mult_Execute (lhs_ rhs_ : option Statement) : M Env ObjectHolder :=
  match lhs_, rhs_ with
  | Some lhs, Some rhs =>
      obj_lhs <- Execute lhs ;;
      obj_rhs <- Execute rhs ;;
      match TryAs_Number obj_lhs, TryAs_Number obj_rhs with
      | Some l_num, Some r_num => ret (Some (Number (wrap_int (l_num * r_num))))
      | _, _ => throw (runtime_error "incorrect mult operands")
      end
  | _, _ => null_operands
  end.

Definition Div_Execute (lhs_ rhs_ : option Statement) : M Env ObjectHolder :=
  match lhs_, rhs_ with
  | Some lhs, Some rhs =>
      obj_lhs <- Execute lhs ;;
      obj_rhs <- Execute rhs ;;
      match TryAs_Number obj_lhs, TryAs_Number obj_rhs with
      | Some l_num, Some r_num =>
          if r_num =? 0 then throw (runtime_error "division by zero")
          else ret (Some (Number (wrap_int (Z.quot l_num r_num))))
      | _, _ => throw (runtime_error "incorrect div operands")
      end
  | _, _ => null_operands
  end.

Definition Or_Execute (lhs_ rhs_ : option Statement) : M Env ObjectHolder :=
  match lhs_, rhs_ with
  | Some lhs, Some rhs =>
      l_obj <- Execute lhs ;;
      if IsTrue l_obj then ret (Some (Bool true))
      else
        r_obj <- Execute rhs ;;
        if IsTrue r_obj then ret (Some (Bool true))
        else ret (Some (Bool false))
  | _, _ => null_operands
  end.

Definition And_Execute (lhs_ rhs_ : option Statement) : M Env ObjectHolder :=
  match lhs_, rhs_ with
  | Some lhs, Some rhs =>
      l_obj <- Execute lhs ;;
      if negb (IsTrue l_obj) then ret (Some (Bool false))
      else
        r_obj <- Execute rhs ;;
        if IsTrue l_obj && IsTrue r_obj then ret (Some (Bool true))
        else ret (Some (Bool false))
  | _, _ => null_operands
  end.

Definition Not_Execute (argument_ : option Statement) : M Env ObjectHolder :=
  match argument_ with
  | Some argument =>
      obj <- Execute argument ;;
      ret (Some (Bool (negb (IsTrue obj))))
  | None => null_operands
  end.

Definition Comparator_call (cmp_ : Comparator) : ObjectHolder -> ObjectHolder -> M State bool :=
  match cmp_ with
  | CmpEqual => Equal Execute
  | CmpNotEqual => NotEqual Execute
  | CmpLess => Less Execute
  | CmpGreater => Greater Execute
  | CmpLessOrEqual => LessOrEqual Execute
  | CmpGreaterOrEqual => GreaterOrEqual Execute
  end.

Definition Comparison_Execute (cmp_ : Comparator) (lhs_ rhs_ : option Statement)
    : M Env ObjectHolder :=
  match lhs_, rhs_ with
  | Some lhs, Some rhs =>
      l_obj <- Execute lhs ;;
      r_obj <- Execute rhs ;;
      res <- lift (Comparator_call cmp_ l_obj r_obj) ;;
      ret (Some (Bool res))
  | _, _ => null_operands
  end.

Definition IfElse_Execute (condition_ if_body_ : Statement)
    (else_body_ : option Statement) : M Env ObjectHolder :=
  bool_condition <- Execute condition_ ;;
  if IsTrue bool_condition then Execute if_body_
  else
    match else_body_ with
    | Some else_body => Execute else_body
    | None => ret None
    end.

(** The virtual dispatch of [Execute] on the class of the node. *)
Definition Execute_node (s : Statement) : M Env ObjectHolder :=
  match s with
  | NumericConst v => ret (Some (Number v))
  | StringConst v => ret (Some (String v))
  | BoolConst v => ret (Some (Bool v))
  | NoneConst => ret None
  | VariableValue ids => VariableValue_Execute ids
  | Assignment v rv => Assignment_Execute v rv
  | FieldAssignment o f rv => FieldAssignment_Execute o f rv
  | NewInstance c args => NewInstance_Execute c args
  | MethodCall o m args => MethodCall_Execute o m args
  | Compound ss => Compound_Execute ss
  | Return s' => Return_Execute s'
  | MethodBody b => MethodBody_Execute b
  | Print args => Print_Execute args
  | Stringify a => Stringify_Execute a
  | Add l r => Add_Execute l r
  | Sub l r => Sub_Execute l r
  | Mult l r => Mult_Execute l r
  | Div l r => Div_Execute l r
  | Or l r => Or_Execute l r
  | And l r => And_Execute l r
  | Not a => Not_Execute a
  | Comparison c l r => Comparison_Execute c l r
  | IfElse c t e => IfElse_Execute c t e
  end.

End Nodes.

(** [Execute] with a bound on the depth of nested calls of [Execute]. *)
Fixpoint Execute (fuel : nat) (s : Statement) : M Env ObjectHolder :=
  match fuel with
  | O => out_of_fuel
  | S fuel' => Execute_node (Execute fuel') fuel' s
  end.

(** NewInstance::NewInstance(class_, args): the node and its [cls_] member,
    a [ClassInstance] of [class_] with no fields. *)
Definition NewInstance_new (class_ : Class) (args : list Statement) (st : State)
    : State * Statement :=
  (mk_State (heap st ++ [ClassInstance_new class_]) (out st),
   NewInstance (length (heap st)) args).

(** RunMythonProgram (main.cpp) once the program is parsed: an empty closure
    and a context over the output stream. *)
Definition RunProgram (fuel : nat) (program : Statement) (st : State) : Env * Result ObjectHolder :=
  Execute fuel program (∅, st).

End ast.

(* ===================================================================== *)
(** * Vocabulary of the stated properties *)
(* ===================================================================== *)

Module props.
Import statement runtime ast.

(** The methods a lookup on class [c] can see, in child-then-parent order. *)
Fixpoint chain_methods (c : Class) : list Method :=
  match c with
  | mk_Class _ ms p =>
      ms ++ match p with
            | Some parent => chain_methods parent
            | None => []
            end
  end.

Definition arity (m : Method) : nat := length (formal_params m).

(** The (name, arity) pair of a method. *)
Definition signature (m : Method) : string * nat := (name m, arity m).

Definition has_signature (nm : string) (n : nat) (m : Method) : bool :=
  String.eqb (name m) nm && Nat.eqb (arity m) n.

Definition named (nm : string) (m : Method) : bool := String.eqb (name m) nm.

(** Some class of the parent chain defines a method [nm] with exactly [n]
    formal parameters. *)
Definition chain_defines (c : Class) (nm : string) (n : nat) : bool :=
  existsb (has_signature nm n) (chain_methods c).

(** Every class of the chain keys its methods by unique (name, arity) pairs. *)
Fixpoint unique_signatures (c : Class) : Prop :=
  match c with
  | mk_Class _ ms p =>
      NoDup (map signature ms) /\
      match p with
      | Some parent => unique_signatures parent
      | None => True
      end
  end.

(** Number, String and Bool objects. *)
Definition is_primitive (x : Object) : bool :=
  match x with
  | Number _ | String _ | Bool _ => true
  | Class_ _ | ClassInstance _ => false
  end.

(** [fmap] on results. *)
Definition map_result {A B} (f : A -> B) (r : Result A) : Result B :=
  match r with
  | Returns a => Returns (f a)
  | Throws e => Throws e
  | OutOfFuel => OutOfFuel
  | Undefined => Undefined
  end.

(** A string literal's body (the characters after the opening quote [q]) is
    closed when the scan, skipping the character after each backslash, meets
    [q]. *)
Fixpoint closed_by (q : ascii) (body : list ascii) : bool :=
  match body with
  | [] => false
  | c :: rest =>
      if Ascii.eqb c q then true
      else if Ascii.eqb c parse.c_backslash then
        match rest with
        | [] => false
        | _ :: rest' => closed_by q rest'
        end
      else closed_by q rest
  end.

(** What the characters of a literal's body stand for: an escape is a
    backslash and the character after it, which is kept (n and t translated)
    when it is one of SPECIAL_SYMBOLS and dropped otherwise. *)
Fixpoint decode (body : list ascii) : list ascii :=
  match body with
  | [] => []
  | c :: rest =>
      if Ascii.eqb c parse.c_backslash then
        match rest with
        | [] => []
        | e :: rest' =>
            (if parse.SPECIAL_SYMBOLS e then
               [if Ascii.eqb e (parse.ch 110) then parse.c_newline
                else if Ascii.eqb e (parse.ch 116) then parse.c_tab
                else e]
             else []) ++ decode rest'
        end
      else c :: decode rest
  end.

(** The predicate [LoadString] reads with, for the opening quote [q]. *)
Definition until_quote (q : ascii) : ascii -> bool :=
  fun c => negb (parse.of_char c =? parse.byte_int q).

Definition is_quote (q : ascii) : bool :=
  Ascii.eqb q parse.c_dquote || Ascii.eqb q parse.c_squote.

Definition is_Indent (t : parse.Token) : bool :=
  match t with parse.token_type.Indent => true | _ => false end.
Definition is_Dedent (t : parse.Token) : bool :=
  match t with parse.token_type.Dedent => true | _ => false end.

Definition count_Indent (ts : list parse.Token) : nat :=
  length (List.filter is_Indent ts).
Definition count_Dedent (ts : list parse.Token) : nat :=
  length (List.filter is_Dedent ts).

(** INDENT tokens minus DEDENT tokens. *)
Definition balance (ts : list parse.Token) : Z :=
  Z.of_nat (count_Indent ts) - Z.of_nat (count_Dedent ts).

(** The invariant of the lexer object: [indent_size_] is a [size_t] and
    counts two spaces per INDENT not yet closed by a DEDENT. *)
Definition indent_invariant (L : parse.Lexer) : Prop :=
  0 <= parse.indent_size_ L < parse.size_t_mod /\
  parse.indent_size_ L = 2 * balance (parse.tokens_ L).

(** [L'] has the indentation state of [L]. *)
Definition same_layout (L L' : parse.Lexer) : Prop :=
  parse.indent_size_ L' = parse.indent_size_ L /\
  balance (parse.tokens_ L') = balance (parse.tokens_ L).

(** The lexer a constructor call starts from. *)
Definition Lexer_init : parse.Lexer :=
  parse.mk_Lexer (parse.token_type.Number 0) 0%nat [] 0.

End props.

(* ===================================================================== *)
(** * Sample classes and programs *)
(* ===================================================================== *)

Module samples.
Import statement runtime ast.

(** class X: def f(a): ...   def f(a, b): ... *)
Definition X_f1 : Method :=
  mk_Method "f" ["a"] (MethodBody (Compound [Print [StringConst "one parameter overload"]])).
Definition X_f2 : Method :=
  mk_Method "f" ["a"; "b"] (MethodBody (Compound [Print [StringConst "two parameters overload"]])).
Definition X : Class := mk_Class "X" [X_f1; X_f2] None.

(** class Par: def f(a, b): ...      class Child(Par): def f(a): ... *)
Definition Par : Class := mk_Class "Par" [X_f2] None.
Definition Child : Class := mk_Class "Child" [X_f1] (Some Par).

(** class Base: def g(): return 1      class Derived(Base): def h(): return 2
    class Over(Base): def g(): return 3 *)
Definition Base_g : Method :=
  mk_Method "g" [] (MethodBody (Compound [Return (NumericConst 1)])).
Definition Base : Class := mk_Class "Base" [Base_g] None.
Definition Derived_h : Method :=
  mk_Method "h" [] (MethodBody (Compound [Return (NumericConst 2)])).
Definition Derived : Class := mk_Class "Derived" [Derived_h] (Some Base).
Definition Over_g : Method :=
  mk_Method "g" [] (MethodBody (Compound [Return (NumericConst 3)])).
Definition Over : Class := mk_Class "Over" [Over_g] (Some Base).

(** class Z: def f(): print <text>; return True    (main.cpp,
    TestShortCircuitEvaluation) *)
Definition Z_f : Method :=
  mk_Method "f" []
    (MethodBody (Compound [Print [StringConst "Should not be executed"];
                           Return (BoolConst true)])).
Definition Z_class : Class := mk_Class "Z" [Z_f] None.

(** A store holding one instance of [Z] at address 0, bound to [z]. *)
Definition Z_state : State := mk_State [ClassInstance_new Z_class] "".
Definition Z_closure : Closure := <["z" := Some (ClassInstance 0%nat)]> ∅.
Definition call_z_f : Statement := MethodCall (VariableValue ["z"]) "f" [].

(** class P: def __lt__(o): print lt; return False
             def __eq__(o): print eq; return True *)
Definition P_lt : Method :=
  mk_Method "__lt__" ["o"]
    (MethodBody (Compound [Print [StringConst "lt"]; Return (BoolConst false)])).
Definition P_eq : Method :=
  mk_Method "__eq__" ["o"]
    (MethodBody (Compound [Print [StringConst "eq"]; Return (BoolConst true)])).
Definition P_class : Class := mk_Class "P" [P_lt; P_eq] None.
Definition P_state : State := mk_State [ClassInstance_new P_class] "".

(** class A:
      def __init__(flag):
        if flag:
          self.x = 1
    class F:
      def make(flag):
        return A(flag)
    f = F()
    a = f.make(True)
    b = f.make(False)
    print b.x
    The [NewInstance] node of [A(flag)] owns the instance at address 0, the
    one of [F()] the instance at address 1. *)
Definition A_init : Method :=
  mk_Method "__init__" ["flag"]
    (MethodBody (Compound
      [IfElse (VariableValue ["flag"])
              (Compound [FieldAssignment ["self"] "x" (NumericConst 1)])
              None])).
Definition A_class : Class := mk_Class "A" [A_init] None.
Definition F_make : Method :=
  mk_Method "make" ["flag"]
    (MethodBody (Compound [Return (NewInstance 0%nat [VariableValue ["flag"]])])).
Definition F_class : Class := mk_Class "F" [F_make] None.
Definition leak_state : State :=
  mk_State [ClassInstance_new A_class; ClassInstance_new F_class] "".
Definition leak_program : Statement :=
  Compound
    [Assignment "f" (NewInstance 1%nat []);
     Assignment "a" (MethodCall (VariableValue ["f"]) "make" [BoolConst true]);
     Assignment "b" (MethodCall (VariableValue ["f"]) "make" [BoolConst false]);
     Print [VariableValue ["b"; "x"]]].

(** x = 123 *)
Definition x123 : Closure := <["x" := Some (Number 123)]> ∅.
Definition empty_state : State := mk_State [] "".

(** A method body:
      print "a"
      if True:
        return 7
      print "unreached" *)
Definition early_return : Statement :=
  Compound [Print [StringConst "a"];
            IfElse (BoolConst true) (Compound [Return (NumericConst 7)]) None;
            Print [StringConst "unreached"]].

End samples.

(* ===================================================================== *)
(** * Token comparison and the vocabulary of further properties *)
(* ===================================================================== *)

Module lexer_api.
Import parse.

(** [Token::index()]: the position of the alternative in [TokenBase]. *)
Definition index (t : Token) : nat :=
  match t with
  | token_type.Number _ => 0 | token_type.Id _ => 1
  | token_type.Char _ => 2 | token_type.String _ => 3
  | token_type.Class => 4 | token_type.Return => 5
  | token_type.If => 6 | token_type.Else => 7
  | token_type.Def => 8 | token_type.Newline => 9
  | token_type.Print => 10 | token_type.Indent => 11
  | token_type.Dedent => 12 | token_type.And => 13
  | token_type.Or => 14 | token_type.Not => 15
  | token_type.Eq => 16 | token_type.NotEq => 17
  | token_type.LessOrEq => 18 | token_type.GreaterOrEq => 19
  | token_type.None => 20 | token_type.True => 21
  | token_type.False => 22 | token_type.Eof => 23
  end%nat.

(** bool operator==(const Token& lhs, const Token& rhs).  [rhs.As<T>()] is
    reached only when [rhs] holds the alternative of [lhs]; on another
    alternative [std::get] would throw, which the last branches stand for. *)
Definition Token_eq (lhs rhs : Token) : bool :=
  if negb (Nat.eqb (index lhs) (index rhs)) then false
  else
    match lhs, rhs with
    | token_type.Char a, token_type.Char b => Ascii.eqb a b
    | token_type.Char _, _ => false
    | token_type.Number a, token_type.Number b => a =? b
    | token_type.Number _, _ => false
    | token_type.String a, token_type.String b => String.eqb a b
    | token_type.String _, _ => false
    | token_type.Id a, token_type.Id b => String.eqb a b
    | token_type.Id _, _ => false
    | _, _ => true
    end.

(** bool operator!=(const Token& lhs, const Token& rhs) *)
Definition Token_neq (lhs rhs : Token) : bool := negb (Token_eq lhs rhs).

End lexer_api.

Module lexer_props.
Import parse.

(** The characters one pass of [LoadTokens] acts on: a space, a hash, a
    digit, a quote, an underscore, a letter, or a special character. *)
Definition recognised (c : ascii) : bool :=
  (byte_int c =? byte_int c_space) || (byte_int c =? byte_int c_hash)
  || isdigit (byte_int c)
  || (byte_int c =? byte_int c_dquote) || (byte_int c =? byte_int c_squote)
  || (byte_int c =? byte_int c_underscore) || isalpha (byte_int c)
  || IsSpecialChar c.

(** A literal body made of plain characters and complete escapes, with no
    occurrence of the quote [q] outside an escape. *)
Fixpoint well_closed (q : ascii) (body : list ascii) : bool :=
  match body with
  | [] => true
  | c :: rest =>
      if Ascii.eqb c q then false
      else if Ascii.eqb c c_backslash then
        match rest with
        | [] => false
        | _ :: rest' => well_closed q rest'
        end
      else well_closed q rest
  end.

(** The predicates [LoadNumber] and [LoadWord] read with. *)
Definition digit_char (c : ascii) : bool := isdigit (of_char c).
Definition word_char (c : ascii) : bool :=
  Ascii.eqb c c_underscore || isalnum (of_char c).

(** What [ReadString] does not give back to the stream: a quote or the
    character 0xFF. *)
Definition swallowed (c : ascii) : bool :=
  Ascii.eqb c c_minus1 || Ascii.eqb c c_squote || Ascii.eqb c c_dquote.

(** A token with a payload the lexer can produce. *)
Definition token_ok (t : Token) : bool :=
  match t with
  | token_type.Number v => (0 <=? v) && (v <=? INT_MAX)
  | token_type.Id w =>
      match KEY_WORDS_TOKEN w with Some _ => false | Datatypes.None => true end
  | token_type.Char c => IsSpecialChar c
  | _ => true
  end.

(** No NEWLINE at the head of the token vector. *)
Definition head_ok (ts : list Token) : bool :=
  match ts with
  | t :: _ => negb (is_Newline t)
  | [] => true
  end.

(** No NEWLINE directly after a NEWLINE. *)
Fixpoint no_double_newline (ts : list Token) : bool :=
  match ts with
  | t1 :: rest =>
      match rest with
      | t2 :: _ => negb (is_Newline t1 && is_Newline t2) && no_double_newline rest
      | [] => true
      end
  | [] => true
  end.

(** What holds of the lexer object all through [ParseTextOnTokens]: the
    cursor has not moved, and the tokens are well formed. *)
Definition lexer_wf (L : Lexer) : Prop :=
  current_token_index_ L = 0%nat /\
  forallb token_ok (tokens_ L) = true /\
  head_ok (tokens_ L) = true /\
  no_double_newline (tokens_ L) = true.

(** The number of two-space steps between an even level and [cur]. *)
Definition steps (a b : Z) : Z := (Z.abs (a - b) + 1) / 2.

End lexer_props.

Module eval_props.
Import statement runtime ast.

(** Number, String or Bool, by kind. *)
Definition prim_kind (h : ObjectHolder) : option nat :=
  match h with
  | Some (Number _) => Some 0%nat
  | Some (String _) => Some 1%nat
  | Some (Bool _) => Some 2%nat
  | _ => None
  end.

(** The text [Print] writes for a holder that is not a class instance. *)
Definition render (h : ObjectHolder) : string :=
  match h with
  | None => "None"
  | Some (Number v) => print_int v
  | Some (String v) => v
  | Some (Bool v) => if v then "True" else "False"
  | Some (Class_ c) => "Class " ++ GetName c
  | Some (ClassInstance l) => print_pointer l
  end.

(** Texts separated by single spaces. *)
Fixpoint join_spaces (texts : list string) : string :=
  match texts with
  | [] => ""
  | [t] => t
  | t :: rest => t ++ " " ++ join_spaces rest
  end.

(** A state, and the outcome of a computation, with [o] in front of the
    output. *)
Definition State_after (o : string) (st : State) : State :=
  mk_State (heap st) (o ++ out st).

Definition after_output {A} (o : string) (x : Env * Result A) : Env * Result A :=
  ((fst (fst x), State_after o (snd (fst x))), snd x).

Definition after_output_st {A} (o : string) (x : State * Result A) : State * Result A :=
  (State_after o (fst x), snd x).

(** A computation that treats the output written so far as opaque: it runs
    the same way whatever that output is, and only adds to its end. *)
Definition appends_only {A} (m : M Env A) : Prop :=
  forall c h o,
    m (c, mk_State h o) = after_output o (m (c, mk_State h "")).

Definition appends_only_st {A} (m : M State A) : Prop :=
  forall h o,
    m (mk_State h o) = after_output_st o (m (mk_State h "")).

End eval_props.

(* ===================================================================== *)
(** * Properties of the runtime: method lookup and comparisons *)
(* ===================================================================== *)

Section MethodLookup.
Import runtime props samples.

Lemma find_app_first {A} (f : A -> bool) (l1 l2 : list A) :
  find f (l1 ++ l2) =
  match find f l1 with Some x => Some x | None => find f l2 end.
Proof.
  induction l1 as [|a l1 IH]; simpl; [reflexivity|].
  destruct (f a); [reflexivity | exact IH].
Qed.

(** The recursive lookup is the first match by name in child-then-parent
    order. *)
Lemma GetMethod_chain : forall (c : Class) (nm : string),
  GetMethod c nm = find (named nm) (chain_methods c).
Proof.
  fix IH 1. intros [cn ms p] nm. simpl.
  rewrite find_app_first. unfold named at 1.
  destruct (find (fun m => String.eqb (name m) nm) ms); [reflexivity|].
  destruct p as [parent|]; [apply IH | reflexivity].
Qed.

Lemma HasMethod_spec (c : Class) (fields : Closure) (nm : string) (n : nat) :
  HasMethod (mk_Instance c fields) nm n = true <->
  exists m, GetMethod c nm = Some m /\ arity m = n.
Proof.
  unfold HasMethod, arity. simpl. destruct (GetMethod c nm) as [m|].
  - rewrite Nat.eqb_eq. split.
    + intros H. exists m. split; [reflexivity | exact H].
    + intros (m' & Hm & Ha). congruence.
  - split; [discriminate | intros (m & Hm & _); discriminate].
Qed.

Lemma find_some_elem {A} (f : A -> bool) (l : list A) (x : A) :
  find f l = Some x -> x ∈ l /\ f x = true.
Proof.
  induction l as [|a l IH]; simpl; [discriminate|].
  destruct (f a) eqn:Hf.
  - intros [= ->]. split; [left | exact Hf].
  - intros H. destruct (IH H) as [Hin Hx]. split; [right; exact Hin | exact Hx].
Qed.

Lemma existsb_find_some {A} (f g : A -> bool) (l : list A) :
  existsb f l = true -> (forall x, f x = true -> g x = true) ->
  exists x, find g l = Some x.
Proof.
  induction l as [|a l IH]; simpl; [discriminate|].
  intros H Hfg. destruct (g a) eqn:Hg; [eauto|].
  destruct (f a) eqn:Hf.
  - rewrite (Hfg a Hf) in Hg. discriminate.
  - simpl in H. apply IH; assumption.
Qed.

(** No method of the chain has the signature: the arity test of [HasMethod]
    fails, whatever method the lookup by name finds. *)
Lemma HasMethod_false_of_chain (i : Instance) (nm : string) (n : nat) :
  chain_defines (cls_ i) nm n = false -> HasMethod i nm n = false.
Proof.
  unfold chain_defines, HasMethod. intros Hnone.
  rewrite GetMethod_chain.
  destruct (find (named nm) (chain_methods (cls_ i))) as [m|] eqn:Hf; [|reflexivity].
  apply find_some_elem in Hf as [Hin Hnm].
  destruct (Nat.eqb (length (formal_params m)) n) eqn:Hn; [|reflexivity].
  assert (existsb (has_signature nm n) (chain_methods (cls_ i)) = true) as Hex.
  { apply existsb_exists. exists m. split.
    - apply list_elem_of_In. exact Hin.
    - unfold has_signature, arity. unfold named in Hnm. rewrite Hnm, Hn. reflexivity. }
  congruence.
Qed.

(** C1 (as amended): method lookup resolves by name alone, first match in
    child-then-parent order.  A lookup of [nm] on a child that defines no
    method of that name gives the parent's result, and gives the child's own
    first method of that name when there is one, whatever the parent defines.
    [HasMethod (nm, n)] holds exactly when the method found this way has [n]
    formal parameters; so it holds whenever the chain defines [(nm, n)] and
    every method named [nm] in the chain has arity [n]. *)
Theorem method_lookup_by_name (c : Class) (nm : string) :
  GetMethod c nm = find (named nm) (chain_methods c) /\
  (forall cn ms p, c = mk_Class cn ms (Some p) ->
     find (named nm) ms = None -> GetMethod c nm = GetMethod p nm) /\
  (forall cn ms p m, c = mk_Class cn ms p ->
     find (named nm) ms = Some m -> GetMethod c nm = Some m) /\
  (forall n fields,
     HasMethod (mk_Instance c fields) nm n = true <->
     exists m, GetMethod c nm = Some m /\ arity m = n) /\
  (forall n fields,
     chain_defines c nm n = true ->
     (forall m, m ∈ chain_methods c -> name m = nm -> arity m = n) ->
     HasMethod (mk_Instance c fields) nm n = true).
Proof.
  split; [apply GetMethod_chain|]. split; [|split; [|split]].
  - intros cn ms p -> Hnone. simpl. unfold named in Hnone. rewrite Hnone. reflexivity.
  - intros cn ms p m -> Hsome. simpl. unfold named in Hsome. rewrite Hsome. reflexivity.
  - intros n fields. apply HasMethod_spec.
  - intros n fields Hdef Hall. apply HasMethod_spec.
    destruct (existsb_find_some (has_signature nm n) (named nm) (chain_methods c) Hdef)
      as [m Hm].
    { intros x Hx. unfold has_signature in Hx. unfold named.
      apply andb_true_iff in Hx as [Hx _]. exact Hx. }
    exists m. split; [rewrite GetMethod_chain; exact Hm|].
    apply find_some_elem in Hm as [Hin Hnm].
    apply Hall; [exact Hin|]. unfold named in Hnm.
    apply String.eqb_eq. exact Hnm.
Qed.

(** C1, at concrete classes: [Derived] inherits [g] from [Base], [Over]
    overrides it, and [HasMethod] agrees with the arity of [Base.g]. *)
Lemma method_lookup_by_name_witness :
  GetMethod Derived "g" = Some Base_g /\
  GetMethod Over "g" = Some Over_g /\
  HasMethod (ClassInstance_new Derived) "g" 0 = true.
Proof.
  split; [|split].
  - destruct (method_lookup_by_name Derived "g") as (_ & Hparent & _).
    rewrite (Hparent "Derived"%string [Derived_h] Base eq_refl eq_refl).
    reflexivity.
  - destruct (method_lookup_by_name Over "g") as (_ & _ & Hchild & _).
    exact (Hchild "Over"%string [Over_g] (Some Base) Over_g eq_refl eq_refl).
  - destruct (method_lookup_by_name Derived "g") as (_ & _ & _ & _ & Hhas).
    apply (Hhas 0%nat ∅); [reflexivity|].
    intros m Hin Hnm. apply list_elem_of_In in Hin. simpl in Hin.
    destruct Hin as [<- | [<- | []]]; [discriminate Hnm | reflexivity].
Defined.

(** C1, as stated, fails: class [X] keys its methods by the unique pairs
    (f, 1) and (f, 2) and defines [f] with exactly two formal parameters, yet
    [HasMethod (f, 2)] is false, because the lookup by name stops at the
    one-parameter [f].  Likewise [Child] does not define (f, 2) and its parent
    does, yet [HasMethod (f, 2)] is false on an instance of [Child]. *)
Lemma method_lookup_arity_counterexample :
  (unique_signatures X /\
   chain_defines X "f" 2 = true /\
   GetMethod X "f" = Some X_f1 /\
   HasMethod (ClassInstance_new X) "f" 2 = false) /\
  (unique_signatures Child /\
   chain_defines Child "f" 2 = true /\
   existsb (has_signature "f" 2) (methods_ Child) = false /\
   HasMethod (ClassInstance_new Child) "f" 2 = false).
Proof.
  assert (forall m : Method, NoDup [signature m]) as Hone.
  { intros m. apply NoDup_cons. split; [intros Hin; inversion Hin | apply NoDup_nil; exact I]. }
  split; (split; [|split; [|split]]); try reflexivity.
  - simpl. split; [|exact I].
    apply NoDup_cons. split; [|apply Hone].
    intros Hin. apply list_elem_of_In in Hin. simpl in Hin.
    destruct Hin as [Heq | []]. discriminate Heq.
  - simpl. split; [apply Hone | split; [apply Hone | exact I]].
Qed.

End MethodLookup.

Section Comparisons.
Import statement runtime ast props samples.

Variable Execute : Statement -> M Env ObjectHolder.

Lemma string_compare_refl (s : string) : String.compare s s = Eq.
Proof.
  pose proof (String.compare_antisym s s) as H.
  destruct (String.compare s s); simpl in H; congruence.
Qed.

Lemma string_ltb_irrefl (s : string) : String.ltb s s = false.
Proof. unfold String.ltb. rewrite string_compare_refl. reflexivity. Qed.

Lemma Equal_primitive_refl (x : Object) (st : State) :
  is_primitive x = true -> Equal Execute (Some x) (Some x) st = (st, Returns true).
Proof.
  destruct x as [n|s|b| |]; simpl; try discriminate; intros _;
    unfold Equal, ret; simpl.
  - rewrite Z.eqb_refl. reflexivity.
  - rewrite String.eqb_refl. reflexivity.
  - rewrite eqb_reflx. reflexivity.
Qed.

Lemma Less_primitive_irrefl (x : Object) (st : State) :
  is_primitive x = true -> Less Execute (Some x) (Some x) st = (st, Returns false).
Proof.
  destruct x as [n|s|b| |]; simpl; try discriminate; intros _;
    unfold Less, ret; simpl.
  - rewrite Z.ltb_irrefl. reflexivity.
  - rewrite string_ltb_irrefl. reflexivity.
  - destruct b; reflexivity.
Qed.

(** C8: on every primitive value (Number, String or Bool) [Equal (x, x)] is
    true, [Less (x, x)] is false and [LessOrEqual (x, x)] is true; none of them
    touches the store or the output. *)
Theorem comparisons_reflexive_on_primitives (x : Object) (st : State) :
  is_primitive x = true ->
  Equal Execute (Some x) (Some x) st = (st, Returns true) /\
  Less Execute (Some x) (Some x) st = (st, Returns false) /\
  LessOrEqual Execute (Some x) (Some x) st = (st, Returns true).
Proof.
  intros Hx. split; [|split].
  - apply Equal_primitive_refl, Hx.
  - apply Less_primitive_irrefl, Hx.
  - unfold LessOrEqual, bind. rewrite (Less_primitive_irrefl x st Hx).
    apply Equal_primitive_refl, Hx.
Qed.

(** The derived comparisons, as compositions of [Equal] and [Less]. *)
Lemma derived_comparisons_equations (lhs rhs : ObjectHolder) (st : State) :
  NotEqual Execute lhs rhs st =
    (let '(st1, e) := Equal Execute lhs rhs st in (st1, map_result negb e)) /\
  LessOrEqual Execute lhs rhs st =
    (let '(st1, l) := Less Execute lhs rhs st in
     match l with
     | Returns false => Equal Execute lhs rhs st1
     | _ => (st1, l)
     end) /\
  Greater Execute lhs rhs st =
    (let '(st1, le) := LessOrEqual Execute lhs rhs st in (st1, map_result negb le)) /\
  GreaterOrEqual Execute lhs rhs st =
    (let '(st1, l) := Less Execute lhs rhs st in (st1, map_result negb l)).
Proof.
  unfold NotEqual, Greater, GreaterOrEqual, bind, ret.
  repeat split.
  - destruct (Equal Execute lhs rhs st) as [st1 [e| | |]]; reflexivity.
  - unfold LessOrEqual, bind, ret.
    destruct (Less Execute lhs rhs st) as [st1 [[|]| | |]]; reflexivity.
  - destruct (LessOrEqual Execute lhs rhs st) as [st1 [e| | |]]; reflexivity.
  - destruct (Less Execute lhs rhs st) as [st1 [e| | |]]; reflexivity.
Qed.

End Comparisons.

Section ComparisonDispatch.
Import statement runtime ast props samples.

(** C8, at the Number 7 (with the interpreter as the executable). *)
Lemma comparisons_reflexive_witness :
  Equal (Execute 5) (Some (Number 7)) (Some (Number 7)) empty_state
    = (empty_state, Returns true) /\
  Less (Execute 5) (Some (Number 7)) (Some (Number 7)) empty_state
    = (empty_state, Returns false) /\
  LessOrEqual (Execute 5) (Some (Number 7)) (Some (Number 7)) empty_state
    = (empty_state, Returns true).
Proof.
  exact (comparisons_reflexive_on_primitives (Execute 5) (Number 7) empty_state eq_refl).
Defined.

(** On Numbers the derived comparisons are the usual order relations. *)
Lemma derived_comparisons_on_numbers (E : Statement -> M Env ObjectHolder)
    (a b : Z) (st : State) :
  NotEqual E (Some (Number a)) (Some (Number b)) st = (st, Returns (negb (a =? b))) /\
  LessOrEqual E (Some (Number a)) (Some (Number b)) st = (st, Returns (a <=? b)) /\
  Greater E (Some (Number a)) (Some (Number b)) st = (st, Returns (b <? a)) /\
  GreaterOrEqual E (Some (Number a)) (Some (Number b)) st = (st, Returns (b <=? a)).
Proof.
  unfold NotEqual, Greater, GreaterOrEqual, LessOrEqual, Less, Equal, bind, ret. simpl.
  repeat split.
  - destruct (Z.ltb_spec a b), (Z.eqb_spec a b), (Z.leb_spec a b);
      try reflexivity; lia.
  - destruct (Z.ltb_spec a b), (Z.eqb_spec a b), (Z.ltb_spec b a);
      simpl; try reflexivity; lia.
  - destruct (Z.ltb_spec a b), (Z.leb_spec b a); simpl; try reflexivity; lia.
Qed.

(** C7: for every pair of holders and every world, the derived comparisons
    are compositions of [Equal] and [Less] run again on the same holders:
    [NotEqual] negates the result of [Equal]; [LessOrEqual] runs [Less] and,
    when that returns false, [Equal] in the world [Less] left behind (the
    right operand of [||] is evaluated only then); [Greater] negates
    [LessOrEqual]; [GreaterOrEqual] negates [Less]; an exception of a dispatch
    leaves the comparison as it is.  The dispatches are performed anew by each
    composition: one [Greater] on an instance of class [P] calls its [__lt__]
    and then its [__eq__], and both bodies print. *)
Theorem derived_comparisons (E : Statement -> M Env ObjectHolder)
    (lhs rhs : ObjectHolder) (st : State) :
  NotEqual E lhs rhs st =
    (let '(st1, e) := Equal E lhs rhs st in (st1, map_result negb e)) /\
  LessOrEqual E lhs rhs st =
    (let '(st1, l) := Less E lhs rhs st in
     match l with
     | Returns false => Equal E lhs rhs st1
     | _ => (st1, l)
     end) /\
  Greater E lhs rhs st =
    (let '(st1, le) := LessOrEqual E lhs rhs st in (st1, map_result negb le)) /\
  GreaterOrEqual E lhs rhs st =
    (let '(st1, l) := Less E lhs rhs st in (st1, map_result negb l)) /\
  Greater (Execute 10) (Some (ClassInstance 0%nat)) (Some (Number 1)) P_state
    = (mk_State [ClassInstance_new P_class] ("lt" ++ endl ++ "eq" ++ endl),
       Returns false).
Proof.
  destruct (derived_comparisons_equations E lhs rhs st) as (H1 & H2 & H3 & H4).
  repeat (split; [assumption|]).
  vm_compute. reflexivity.
Qed.

End ComparisonDispatch.

(* ===================================================================== *)
(** * Properties of the evaluation of nodes *)
(* ===================================================================== *)

Section Evaluation.
Import statement runtime ast props samples.

Lemma Execute_S (fuel : nat) (s : Statement) :
  Execute (S fuel) s = Execute_node (Execute fuel) fuel s.
Proof. reflexivity. Qed.

Ltac run_node :=
  rewrite ?Execute_S; simpl;
  unfold Or_Execute, And_Execute, Return_Execute, MethodBody_Execute,
    IfElse_Execute, MethodCall_Execute, FieldAssignment_Execute,
    VariableValue_Execute, null_operands, bind, ret, throw, lift; simpl.

Lemma Or_returns_Bool (n : nat) (a b : option Statement) (env env' : Env)
    (h : ObjectHolder) :
  Execute n (Or a b) env = (env', Returns h) -> exists v, h = Some (Bool v).
Proof.
  destruct n as [|n]; [discriminate|]. run_node.
  destruct a as [a|], b as [b|]; try discriminate.
  destruct (Execute n a env) as [env1 [l| | |]]; try discriminate.
  destruct (IsTrue l); [intros [= _ <-]; eauto|].
  destruct (Execute n b env1) as [env2 [r| | |]]; try discriminate.
  destruct (IsTrue r); intros [= _ <-]; eauto.
Qed.

Lemma And_returns_Bool (n : nat) (a b : option Statement) (env env' : Env)
    (h : ObjectHolder) :
  Execute n (And a b) env = (env', Returns h) -> exists v, h = Some (Bool v).
Proof.
  destruct n as [|n]; [discriminate|]. run_node.
  destruct a as [a|], b as [b|]; try discriminate.
  destruct (Execute n a env) as [env1 [l| | |]]; try discriminate.
  destruct (IsTrue l); simpl; [|intros [= _ <-]; eauto].
  destruct (Execute n b env1) as [env2 [r| | |]]; try discriminate.
  destruct (IsTrue r); intros [= _ <-]; eauto.
Qed.

(** C5: when the left operand evaluates (normally) to a truthy value, [or]
    returns [Bool true] in exactly the closure and world the left operand left
    behind, whatever the right operand is: the right operand is not executed.
    Likewise [and] returns [Bool false] after a falsy left operand.  Whenever
    [or] or [and] return a value at all, it is a [Bool]. *)
Theorem logic_short_circuit (fuel : nat) (lhs rhs : Statement) (e e' : Env)
    (l : ObjectHolder) :
  Execute fuel lhs e = (e', Returns l) ->
  (IsTrue l = true ->
     Execute (S fuel) (Or (Some lhs) (Some rhs)) e = (e', Returns (Some (Bool true)))) /\
  (IsTrue l = false ->
     Execute (S fuel) (And (Some lhs) (Some rhs)) e = (e', Returns (Some (Bool false)))) /\
  (forall n a b env env' h,
     Execute n (Or a b) env = (env', Returns h) -> exists v, h = Some (Bool v)) /\
  (forall n a b env env' h,
     Execute n (And a b) env = (env', Returns h) -> exists v, h = Some (Bool v)).
Proof.
  intros Hl. split; [|split; [|split]].
  - intros Ht. run_node. rewrite Hl, Ht. reflexivity.
  - intros Hf. run_node. rewrite Hl, Hf. reflexivity.
  - apply Or_returns_Bool.
  - apply And_returns_Bool.
Qed.

(** C5, on the program of TestShortCircuitEvaluation: [True or z.f()] and
    [False and z.f()] leave the output empty, although [z.f()] prints. *)
Lemma logic_short_circuit_witness :
  Execute 11 (Or (Some (BoolConst true)) (Some call_z_f)) (Z_closure, Z_state)
    = ((Z_closure, Z_state), Returns (Some (Bool true))) /\
  Execute 11 (And (Some (BoolConst false)) (Some call_z_f)) (Z_closure, Z_state)
    = ((Z_closure, Z_state), Returns (Some (Bool false))) /\
  out (snd (fst (Execute 10 call_z_f (Z_closure, Z_state))))
    = ("Should not be executed" ++ endl)%string.
Proof.
  split; [|split].
  - exact (proj1 (logic_short_circuit 10 (BoolConst true) call_z_f
                    (Z_closure, Z_state) (Z_closure, Z_state) (Some (Bool true))
                    eq_refl) eq_refl).
  - exact (proj1 (proj2 (logic_short_circuit 10 (BoolConst false) call_z_f
                    (Z_closure, Z_state) (Z_closure, Z_state) (Some (Bool false))
                    eq_refl)) eq_refl).
  - vm_compute. reflexivity.
Defined.

Lemma Compound_prefix (E : Statement -> M Env ObjectHolder)
    (pre : list Statement) (s : Statement) (rest : list Statement)
    (e e1 e' : Env) (x : Exception) :
  Compound_Execute E pre e = (e1, Returns None) ->
  E s e1 = (e', Throws x) ->
  Compound_Execute E (pre ++ s :: rest) e = (e', Throws x).
Proof.
  revert e. induction pre as [|p pre IH]; intros e Hpre Hs; simpl in *.
  - unfold ret in Hpre. injection Hpre as ->. unfold bind. rewrite Hs. reflexivity.
  - unfold bind in *. destruct (E p e) as [e2 [v| | |]]; try discriminate.
    apply IH; assumption.
Qed.

(** C6: [Return expr] evaluates [expr] and raises the signal carrying its
    holder.  The signal raised by a statement of a [Compound] (after a prefix
    that completed normally) or by the branch an [IfElse] takes leaves that
    node unchanged, the remaining statements not being executed.  A
    [MethodBody] turns the signal of its inner statement into a normal return
    of the payload, returns the empty holder when the inner statement
    completes normally, and lets a [runtime_error] through untouched; an
    enclosing [MethodBody] further out sees no signal. *)
Theorem return_signal_propagation (fuel : nat) (e e' : Env) (h : ObjectHolder) :
  (forall expr,
     Execute fuel expr e = (e', Returns h) ->
     Execute (S fuel) (Return expr) e = (e', Throws (RuntimeReturnExeption h))) /\
  (forall pre s rest e1,
     Execute (S fuel) (Compound pre) e = (e1, Returns None) ->
     Execute fuel s e1 = (e', Throws (RuntimeReturnExeption h)) ->
     Execute (S fuel) (Compound (pre ++ s :: rest)) e
       = (e', Throws (RuntimeReturnExeption h))) /\
  (forall cond if_body else_body e1 c,
     Execute fuel cond e = (e1, Returns c) -> IsTrue c = true ->
     Execute fuel if_body e1 = (e', Throws (RuntimeReturnExeption h)) ->
     Execute (S fuel) (IfElse cond if_body else_body) e
       = (e', Throws (RuntimeReturnExeption h))) /\
  (forall cond if_body else_body e1 c,
     Execute fuel cond e = (e1, Returns c) -> IsTrue c = false ->
     Execute fuel else_body e1 = (e', Throws (RuntimeReturnExeption h)) ->
     Execute (S fuel) (IfElse cond if_body (Some else_body)) e
       = (e', Throws (RuntimeReturnExeption h))) /\
  (forall inner,
     Execute fuel inner e = (e', Throws (RuntimeReturnExeption h)) ->
     Execute (S fuel) (MethodBody inner) e = (e', Returns h) /\
     Execute (S (S fuel)) (MethodBody (MethodBody inner)) e = (e', Returns None)) /\
  (forall inner,
     Execute fuel inner e = (e', Returns h) ->
     Execute (S fuel) (MethodBody inner) e = (e', Returns None)) /\
  (forall inner what,
     Execute fuel inner e = (e', Throws (runtime_error what)) ->
     Execute (S fuel) (MethodBody inner) e = (e', Throws (runtime_error what))).
Proof.
  repeat split.
  - intros expr H. run_node. rewrite H. reflexivity.
  - intros pre s rest e1 Hpre Hs. rewrite Execute_S in *. simpl in *.
    eapply Compound_prefix; eassumption.
  - intros cond if_body else_body e1 c Hc Ht Hb. run_node. rewrite Hc, Ht. exact Hb.
  - intros cond if_body else_body e1 c Hc Hf Hb. run_node. rewrite Hc, Hf. exact Hb.
  - run_node. rewrite H. reflexivity.
  - rewrite (Execute_S (S fuel)). simpl. unfold MethodBody_Execute at 1.
    run_node. rewrite H. reflexivity.
  - intros inner H. run_node. rewrite H. reflexivity.
  - intros inner what H. run_node. rewrite H. reflexivity.
Qed.

(** C4: when the dotted receiver evaluates to a value that is not a class
    instance, a method call on it completes normally with the empty holder,
    while a field assignment through it raises the runtime error [Cant find
    field] without evaluating its right-hand side; the error ends the
    enclosing [Compound] (the statements after it are not executed) and
    passes through a [MethodBody]. *)
Theorem non_instance_call_vs_field_assignment (fuel : nat) (path : list string)
    (method field : string) (args : list Statement) (rv : Statement)
    (rest : list Statement) (e : Env) (h : ObjectHolder) :
  Execute (S fuel) (VariableValue path) e = (e, Returns h) ->
  TryAs_ClassInstance h = None ->
  Execute (S (S fuel)) (MethodCall (VariableValue path) method args) e
    = (e, Returns None) /\
  Execute (S (S fuel)) (FieldAssignment path field rv) e
    = (e, Throws (runtime_error "Cant find field")) /\
  Execute (S (S (S fuel))) (Compound (FieldAssignment path field rv :: rest)) e
    = (e, Throws (runtime_error "Cant find field")) /\
  Execute (S (S (S fuel))) (MethodBody (FieldAssignment path field rv)) e
    = (e, Throws (runtime_error "Cant find field")).
Proof.
  intros Hv Hni.
  assert (Execute (S (S fuel)) (FieldAssignment path field rv) e
          = (e, Throws (runtime_error "Cant find field"))) as HFA.
  { rewrite Execute_S in Hv. simpl in Hv. unfold VariableValue_Execute in Hv.
    run_node. injection Hv as Hw. rewrite Hw, Hni. reflexivity. }
  split; [|split; [exact HFA|split]].
  - rewrite (Execute_S (S fuel)). cbn [Execute_node].
    unfold MethodCall_Execute, bind. rewrite Hv, Hni. reflexivity.
  - rewrite (Execute_S (S (S fuel))). cbn [Execute_node Compound_Execute].
    unfold bind. rewrite HFA. reflexivity.
  - rewrite (Execute_S (S (S fuel))). cbn [Execute_node].
    unfold MethodBody_Execute. rewrite HFA. reflexivity.
Qed.

(** C10: when the receiver evaluates to a value that is not a class instance,
    or to an instance whose class chain defines no method of the called name
    with as many formal parameters as there are arguments, the call returns
    the empty holder in exactly the closure and world the receiver left
    behind, whatever the argument expressions are: none of them is
    executed. *)
Theorem method_call_skips_arguments (fuel : nat) (object_ : Statement)
    (method : string) (args : list Statement) (e e' : Env) (obj : ObjectHolder) :
  Execute fuel object_ e = (e', Returns obj) ->
  (TryAs_ClassInstance obj = None \/
   exists l inst, obj = Some (ClassInstance l) /\
     heap (snd e') !! l = Some inst /\
     chain_defines (cls_ inst) method (length args) = false) ->
  Execute (S fuel) (MethodCall object_ method args) e = (e', Returns None).
Proof.
  intros Hobj Hcase. rewrite Execute_S. simpl. unfold MethodCall_Execute, bind.
  rewrite Hobj. destruct Hcase as [Hni | (l & inst & -> & Hheap & Hnone)].
  - rewrite Hni. reflexivity.
  - simpl. unfold lift, instance_at. rewrite Hheap.
    rewrite (HasMethod_false_of_chain inst method (length args) Hnone).
    destruct e' as [c st]. reflexivity.
Qed.

(** C4, on the programs of TestNonClassMethodCall and
    TestNonClassFieldAssignment: with [x = 123], [x.f()] completes with the
    empty holder and [x.b = 456] raises. *)
Lemma non_instance_call_vs_field_assignment_witness :
  Execute 3 (MethodCall (VariableValue ["x"]) "f" []) (x123, empty_state)
    = ((x123, empty_state), Returns None) /\
  Execute 3 (FieldAssignment ["x"] "b" (NumericConst 456)) (x123, empty_state)
    = ((x123, empty_state), Throws (runtime_error "Cant find field")).
Proof.
  destruct (non_instance_call_vs_field_assignment 1 ["x"] "f" "b" []
              (NumericConst 456) [] (x123, empty_state) (Some (Number 123))
              ltac:(vm_compute; reflexivity) eq_refl) as (H1 & H2 & _).
  split; assumption.
Defined.

(** C6, on [early_return]: the signal raised under the [IfElse] leaves the
    [Compound] (the last print is not executed) and the [MethodBody] around it
    returns 7. *)
Lemma return_signal_propagation_witness :
  Execute 6 early_return (∅, empty_state)
    = ((∅, mk_State [] ("a" ++ endl)), Throws (RuntimeReturnExeption (Some (Number 7)))) /\
  Execute 7 (MethodBody early_return) (∅, empty_state)
    = ((∅, mk_State [] ("a" ++ endl)), Returns (Some (Number 7))).
Proof.
  pose (e0 := ((∅, empty_state) : Env)).
  pose (e1 := ((∅, mk_State [] ("a" ++ endl)) : Env)).
  pose (ret7 := IfElse (BoolConst true) (Compound [Return (NumericConst 7)]) None).
  assert (Execute 6 early_return e0
          = (e1, Throws (RuntimeReturnExeption (Some (Number 7))))) as Hbody.
  { destruct (return_signal_propagation 5 e0 e1 (Some (Number 7)))
      as (_ & Hcompound & _).
    apply (Hcompound [Print [StringConst "a"]] ret7 [Print [StringConst "unreached"]] e1);
      vm_compute; reflexivity. }
  split; [exact Hbody|].
  destruct (return_signal_propagation 6 e0 e1 (Some (Number 7)))
    as (_ & _ & _ & _ & Hcatch & _).
  exact (proj1 (Hcatch early_return Hbody)).
Defined.

(** C10, with arguments that would print: on [x = 123] the call
    [x.f(z.f())] and on the instance [z] (whose class defines [f] with no
    parameter) the call [z.f(z.f())] return the empty holder and write
    nothing. *)
Lemma method_call_skips_arguments_witness :
  Execute 11 (MethodCall (VariableValue ["x"]) "f" [call_z_f])
             (<["x" := Some (Number 123)]> Z_closure, Z_state)
    = ((<["x" := Some (Number 123)]> Z_closure, Z_state), Returns None) /\
  Execute 11 (MethodCall (VariableValue ["z"]) "f" [call_z_f]) (Z_closure, Z_state)
    = ((Z_closure, Z_state), Returns None).
Proof.
  split.
  - apply (method_call_skips_arguments 10 (VariableValue ["x"]) "f" [call_z_f]
             (<["x" := Some (Number 123)]> Z_closure, Z_state) _ (Some (Number 123))).
    + vm_compute. reflexivity.
    + left. reflexivity.
  - apply (method_call_skips_arguments 10 (VariableValue ["z"]) "f" [call_z_f]
             (Z_closure, Z_state) _ (Some (ClassInstance 0%nat))).
    + vm_compute. reflexivity.
    + right. exists 0%nat, (ClassInstance_new Z_class).
      split; [reflexivity | split; reflexivity].
Defined.

(** What every [NewInstance] execution returns: a holder of a new object (the
    next free address) that is a copy of the instance the node owns, as that
    instance is once [__init__] has run on it. *)
Lemma NewInstance_returns_copy (fuel : nat) (c : loc) (args : list Statement)
    (e e' : Env) (h : ObjectHolder) :
  Execute (S fuel) (NewInstance c args) e = (e', Returns h) ->
  exists heap_ inst,
    heap (snd e') = heap_ ++ [inst] /\
    heap_ !! c = Some inst /\
    h = Some (ClassInstance (length heap_)).
Proof.
  rewrite Execute_S. cbn [Execute_node]. unfold NewInstance_Execute, bind.
  destruct (Execute_args (Execute fuel) args e) as [[c1 st1] [actual| | |]];
    try discriminate.
  unfold lift at 1. unfold instance_at at 1. cbn [fst snd].
  destruct (heap st1 !! c) as [this|]; try discriminate.
  assert (forall st2 : State,
            (let '(s', r) := lift (instance_at c) (c1, st2) in
             match r with
             | Returns a => lift (Own_instance a) s'
             | Throws x => (s', Throws x)
             | OutOfFuel => (s', OutOfFuel)
             | Undefined => (s', Undefined)
             end) = (e', Returns h) ->
            exists heap_ inst,
              heap (snd e') = heap_ ++ [inst] /\ heap_ !! c = Some inst /\
              h = Some (ClassInstance (length heap_))) as Hcopy.
  { intros st2. unfold lift, instance_at, Own_instance. cbn [fst snd].
    destruct (heap st2 !! c) as [inst|] eqn:Hc; try discriminate.
    intros [= <- <-]. exists (heap st2), inst. auto. }
  destruct (HasMethod this INIT_METHOD (length args)).
  - unfold lift at 1. cbn [fst snd].
    destruct (Call (Execute fuel) c INIT_METHOD actual st1) as [st2 [r| | |]];
      try discriminate.
    unfold ret. apply Hcopy.
  - unfold ret. apply Hcopy.
Qed.

(** The store [leak_program] runs in is the one the constructors of its two
    [NewInstance] nodes leave behind. *)
Lemma leak_state_built :
  let '(st1, node_A) := NewInstance_new A_class [VariableValue ["flag"]] empty_state in
  let '(st2, node_F) := NewInstance_new F_class [] st1 in
  st2 = leak_state /\
  node_A = NewInstance 0%nat [VariableValue ["flag"]] /\
  node_F = NewInstance 1%nat [].
Proof. repeat split. Qed.

(** C3, at the failing input [leak_program]: the node [A(flag)] is executed
    twice, through [f.make(True)] and [f.make(False)].  The two results are
    distinct instances (addresses 3 and 4), but [__init__] ran on the
    instance the node owns (address 0) and each result is a copy of it: the
    second instance has the field [x] although its [__init__] assigned
    nothing, and the program prints 1 where a fresh field environment would
    make [b.x] an undefined name. *)
Lemma NewInstance_copies_node_instance :
  exists closure heap_,
    RunProgram 20 leak_program leak_state
      = ((closure, mk_State heap_ ("1" ++ endl)), Returns None) /\
    closure !! "a" = Some (Some (ClassInstance 3%nat)) /\
    closure !! "b" = Some (Some (ClassInstance 4%nat)) /\
    (closure_ <$> heap_ !! 0%nat) = Some (<["x" := Some (Number 1)]> ∅) /\
    (closure_ <$> heap_ !! 4%nat) = Some (<["x" := Some (Number 1)]> ∅).
Proof.
  eexists _, _. split; [vm_compute; reflexivity|].
  repeat split; vm_compute; reflexivity.
Qed.

End Evaluation.

(* ===================================================================== *)
(** * Properties of the lexer *)
(* ===================================================================== *)

Section StringLiterals.
Import parse props.

Lemma list_ind_two {A} (P : list A -> Prop) :
  P [] ->
  (forall c rest, P rest -> P (tail rest) -> P (c :: rest)) ->
  forall l, P l.
Proof.
  intros Hnil Hcons l.
  assert (P l /\ P (tail l)) as [H _]; [|exact H].
  induction l as [|c rest [IH1 IH2]]; simpl; [split; exact Hnil|].
  split; [apply Hcons; assumption | exact IH1].
Qed.

Lemma is_quote_cases (q : ascii) :
  is_quote q = true -> q = c_dquote \/ q = c_squote.
Proof.
  unfold is_quote. intros H. apply orb_true_iff in H as [H|H];
    apply Ascii.eqb_eq in H; auto.
Qed.

Lemma until_quote_eqb (q c : ascii) :
  is_quote q = true -> until_quote q c = negb (Ascii.eqb c q).
Proof.
  intros Hq. destruct (is_quote_cases q Hq) as [-> | ->];
    destruct c as [[] [] [] [] [] [] [] []]; reflexivity.
Qed.

Lemma quote_not_backslash (q : ascii) :
  is_quote q = true -> Ascii.eqb q c_backslash = false.
Proof. intros Hq. destruct (is_quote_cases q Hq) as [-> | ->]; reflexivity. Qed.

Lemma ReadString_loop_cons (pred : ascii -> bool) (c : ascii)
    (rest result : list ascii) :
  ReadString_loop pred (c :: rest) result =
  if negb (pred c) then (result, c, mk_istream rest false)
  else if Ascii.eqb c c_backslash then
    match rest with
    | [] => (result, c, mk_istream [] true)
    | e :: rest' =>
        if SPECIAL_SYMBOLS e then
          ReadString_loop pred rest'
            (result ++ [if Ascii.eqb e (ch 110) then c_newline
                        else if Ascii.eqb e (ch 116) then c_tab else e])
        else ReadString_loop pred rest' result
    end
  else ReadString_loop pred rest (result ++ [c]).
Proof. reflexivity. Qed.

(** On a body that is not closed, the loop of [ReadString] runs to the end
    of the line: it collects the decoded body (and possibly a last
    character), and stops on a stream at end of file with [c] either
    [(char)EOF] or a backslash. *)
Lemma ReadString_loop_unclosed (q : ascii) (body : list ascii) :
  is_quote q = true ->
  forall acc, closed_by q body = false ->
  exists tail_ c,
    ReadString_loop (until_quote q) body acc
      = (acc ++ decode body ++ tail_, c, mk_istream [] true) /\
    (c = c_minus1 \/ c = c_backslash).
Proof.
  intros Hq. induction body as [|c rest IH1 IH2] using list_ind_two; intros acc Hopen.
  - exists [to_char EOF], c_minus1. split; [|left; reflexivity].
    simpl. destruct (is_quote_cases q Hq) as [-> | ->]; reflexivity.
  - cbn [closed_by] in Hopen. rewrite ReadString_loop_cons.
    rewrite (until_quote_eqb q c Hq). cbn [decode].
    destruct (Ascii.eqb c q) eqn:Hcq; [discriminate|]. cbn [negb].
    destruct (Ascii.eqb c c_backslash) eqn:Hbs.
    + destruct rest as [|e rest'].
      * exists [], c. split; [rewrite app_nil_r; reflexivity|].
        right. apply Ascii.eqb_eq. exact Hbs.
      * cbn [tail] in IH2. destruct (SPECIAL_SYMBOLS e).
        -- destruct (IH2 (acc ++ [if Ascii.eqb e (ch 110) then c_newline
                                   else if Ascii.eqb e (ch 116) then c_tab else e])
                       Hopen) as (tl & c' & Heq & Hc').
           exists tl, c'. split; [|exact Hc'].
           rewrite Heq. rewrite <- !app_assoc. reflexivity.
        -- destruct (IH2 acc Hopen) as (tl & c' & Heq & Hc').
           exists tl, c'. split; [|exact Hc']. rewrite Heq. reflexivity.
    + destruct (IH1 (acc ++ [c]) Hopen) as (tl & c' & Heq & Hc').
      exists tl, c'. split; [|exact Hc'].
      rewrite Heq. rewrite <- !app_assoc. reflexivity.
Qed.

Lemma ReadString_unclosed (q : ascii) (body : list ascii) :
  is_quote q = true -> closed_by q body = false ->
  exists tail_,
    ReadString (mk_istream body false) (until_quote q)
      = (decode body ++ tail_, mk_istream [] true).
Proof.
  intros Hq Hopen.
  destruct (ReadString_loop_unclosed q body Hq [] Hopen) as (tl & c & Heq & Hc).
  exists tl. unfold ReadString. cbn [eof eofbit buf]. rewrite Heq.
  rewrite app_nil_l.
  destruct Hc as [-> | ->].
  - reflexivity.
  - rewrite (until_quote_eqb q c_backslash Hq).
    rewrite (Ascii.eqb_sym c_backslash q), (quote_not_backslash q Hq). reflexivity.
Qed.

Lemma peek_idempotent (s : istream) :
  peek (snd (peek s)) = peek s.
Proof.
  unfold peek. destruct s as [b [|]]; [reflexivity|].
  destruct b as [|c rest]; reflexivity.
Qed.

Lemma LoadTokens_S (fuel : nat) (input : istream) (L : Lexer) :
  LoadTokens (S fuel) input L =
  if eof input then LexOk L
  else match LoadTokens_body input L with
       | LexOk (true, _, L') => LexOk L'
       | LexOk (false, input', L') => LoadTokens fuel input' L'
       | LexThrow w => LexThrow w
       | LexDiverge => LexDiverge
       end.
Proof. reflexivity. Qed.

Lemma LoadTokens_at_eof (fuel : nat) (input : istream) (L : Lexer) :
  eof input = true -> LoadTokens fuel input L = LexOk L.
Proof. intros H. destruct fuel; simpl; rewrite H; reflexivity. Qed.

Local Arguments LoadString : simpl never.
Local Arguments LoadTokens : simpl never.

(** C2 (as amended): an input line that continues with a string literal
    opened by a quote character and not closed by the same quote before the
    end of the line does not make the lexer fail.  [LoadTokens], positioned
    at the opening quote, returns normally with exactly one more token, a
    [String] whose value starts with the decoded characters of the rest of
    the line; nothing is thrown. *)
Theorem unterminated_string_is_lexed (fuel : nat) (q : ascii) (body : list ascii)
    (L : Lexer) :
  is_quote q = true ->
  closed_by q body = false ->
  exists tail_,
    LoadTokens (S fuel) (stringstream (q :: body)) L
      = LexOk (push_back L
                 (token_type.String (string_of_list_ascii (decode body ++ tail_)))).
Proof.
  intros Hq Hopen.
  destruct (ReadString_unclosed q body Hq Hopen) as (tl & Hread).
  exists tl.
  assert (LoadString (stringstream (q :: body)) L
          = (mk_istream [] true,
             push_back L (token_type.String (string_of_list_ascii (decode body ++ tl)))))
    as HLS.
  { unfold LoadString, stringstream, get. cbn [eofbit buf].
    fold (until_quote q). rewrite Hread. reflexivity. }
  rewrite LoadTokens_S. unfold LoadTokens_body.
  destruct (is_quote_cases q Hq) as [-> | ->];
    simpl; simpl in HLS; rewrite HLS; simpl;
    apply LoadTokens_at_eof; reflexivity.
Qed.

(** C2, at the line ['abc]. *)
Lemma unterminated_string_is_lexed_witness :
  exists tail_,
    LoadTokens 1 (stringstream [c_squote; ch 97; ch 98; ch 99]) Lexer_init
      = LexOk (push_back Lexer_init
                 (token_type.String
                    (string_of_list_ascii ([ch 97; ch 98; ch 99] ++ tail_)))).
Proof.
  exact (unterminated_string_is_lexed 0 c_squote [ch 97; ch 98; ch 99] Lexer_init
           eq_refl eq_refl).
Defined.

(** C2, as stated, fails: on the input [x = 'abc], whose string literal is
    never closed, the lexer throws nothing and produces a [String] token. *)
Lemma unterminated_string_counterexample :
  lex 5 "x = 'abc" =
  LexOk [token_type.Id "x"; token_type.Char (ch 61);
         token_type.String (string_of_list_ascii [ch 97; ch 98; ch 99; c_minus1]);
         token_type.Newline; token_type.Eof].
Proof. vm_compute. reflexivity. Qed.

End StringLiterals.

Section Indentation.
Import parse props.

Lemma balance_push (ts : list Token) (t : Token) :
  balance (ts ++ [t]) =
  balance ts + (if is_Indent t then 1 else 0) - (if is_Dedent t then 1 else 0).
Proof.
  unfold balance, count_Indent, count_Dedent.
  rewrite !List.filter_app, !length_app. simpl.
  destruct (is_Indent t), (is_Dedent t); simpl; lia.
Qed.

Lemma same_layout_refl (L : Lexer) : same_layout L L.
Proof. split; reflexivity. Qed.

Lemma same_layout_trans (L1 L2 L3 : Lexer) :
  same_layout L1 L2 -> same_layout L2 L3 -> same_layout L1 L3.
Proof. intros [H1 H2] [H3 H4]. split; congruence. Qed.

Lemma same_layout_push (L : Lexer) (t : Token) :
  is_Indent t = false -> is_Dedent t = false -> same_layout L (push_back L t).
Proof.
  intros Hi Hd. split; [reflexivity|]. simpl.
  rewrite balance_push, Hi, Hd. lia.
Qed.

Lemma invariant_same_layout (L L' : Lexer) :
  indent_invariant L -> same_layout L L' -> indent_invariant L'.
Proof. intros [Hr He] [Hi Hb]. unfold indent_invariant. rewrite Hi, Hb. auto. Qed.

Lemma KEY_WORDS_TOKEN_layout (w : string) (t : Token) :
  KEY_WORDS_TOKEN w = Some t -> is_Indent t = false /\ is_Dedent t = false.
Proof.
  unfold KEY_WORDS_TOKEN.
  repeat match goal with
         | |- context [String.eqb ?a ?b] => destruct (String.eqb a b)
         end; intros [= <-]; split; reflexivity.
Qed.

Lemma SPECIAL_OPERATORS_TOKEN_layout (w : string) (t : Token) :
  SPECIAL_OPERATORS_TOKEN w = Some t -> is_Indent t = false /\ is_Dedent t = false.
Proof.
  unfold SPECIAL_OPERATORS_TOKEN.
  repeat match goal with
         | |- context [String.eqb ?a ?b] => destruct (String.eqb a b)
         end; intros [= <-]; split; reflexivity.
Qed.

Lemma LoadNumber_layout (input input' : istream) (L L' : Lexer) :
  LoadNumber input L = LexOk (input', L') -> same_layout L L'.
Proof.
  unfold LoadNumber. destruct (ReadString input _) as [number i].
  destruct (stoi number) as [v| |]; intros [= _ <-].
  apply same_layout_push; reflexivity.
Qed.

Lemma LoadString_layout (input : istream) (L : Lexer) :
  same_layout L (snd (LoadString input L)).
Proof.
  unfold LoadString. destruct (get input) as [e i].
  destruct (ReadString i _) as [dest i']. simpl.
  apply same_layout_push; reflexivity.
Qed.

Lemma LoadWord_layout (input : istream) (L : Lexer) :
  same_layout L (snd (LoadWord input L)).
Proof.
  unfold LoadWord. destruct (ReadString input _) as [w i].
  destruct (KEY_WORDS_TOKEN (string_of_list_ascii w)) as [t|] eqn:Hk; simpl.
  - destruct (KEY_WORDS_TOKEN_layout _ _ Hk). apply same_layout_push; assumption.
  - apply same_layout_push; reflexivity.
Qed.

Lemma LoadSign_layout (input input' : istream) (L L' : Lexer) :
  LoadSign input L = LexOk (input', L') -> same_layout L L'.
Proof.
  unfold LoadSign. destruct (get input) as [f i]. destruct (peek i) as [p i2].
  destruct (p =? byte_int c_equals).
  - destruct (get i2) as [s2 i3].
    destruct (SPECIAL_OPERATORS_TOKEN _) as [t|] eqn:Hk; intros [= _ <-].
    destruct (SPECIAL_OPERATORS_TOKEN_layout _ _ Hk). apply same_layout_push; assumption.
  - intros [= _ <-]. apply same_layout_push; reflexivity.
Qed.

Lemma LoadTokens_body_layout (input input' : istream) (L L' : Lexer) (b : bool) :
  LoadTokens_body input L = LexOk (b, input', L') -> same_layout L L'.
Proof.
  unfold LoadTokens_body.
  destruct (peek input) as [p0 i0].
  destruct (peek (if p0 =? byte_int c_space then ignore i0 else i0)) as [p1 i1].
  destruct (p1 =? byte_int c_hash); [intros [= _ _ <-]; apply same_layout_refl|].
  destruct (peek i1) as [p2 i2].
  destruct (if isdigit p2 then LoadNumber i2 L else LexOk (i2, L))
    as [[i3 L3]| |] eqn:Hnum; try discriminate.
  assert (same_layout L L3) as H3.
  { destruct (isdigit p2).
    - eapply LoadNumber_layout; eassumption.
    - injection Hnum as _ <-. apply same_layout_refl. }
  destruct (peek i3) as [p4 i4].
  destruct (if (p4 =? byte_int c_dquote) || (p4 =? byte_int c_squote)
            then LoadString i4 L3 else (i4, L3)) as [i5 L5] eqn:Hstr.
  assert (same_layout L3 L5) as H5.
  { destruct ((p4 =? byte_int c_dquote) || (p4 =? byte_int c_squote)).
    - pose proof (LoadString_layout i4 L3) as H. rewrite Hstr in H. exact H.
    - injection Hstr as _ <-. apply same_layout_refl. }
  destruct (peek i5) as [p6 i6].
  destruct (if (p6 =? byte_int c_underscore) || isalpha p6
            then LoadWord i6 L5 else (i6, L5)) as [i7 L7] eqn:Hword.
  assert (same_layout L5 L7) as H7.
  { destruct ((p6 =? byte_int c_underscore) || isalpha p6).
    - pose proof (LoadWord_layout i6 L5) as H. rewrite Hword in H. exact H.
    - injection Hword as _ <-. apply same_layout_refl. }
  assert (same_layout L L7) as H07.
  { eapply same_layout_trans; [exact H3|]. eapply same_layout_trans; eassumption. }
  destruct (peek i7) as [p8 i8].
  destruct (IsSpecialChar (to_char p8)).
  - destruct (peek i8) as [p9 i9]. destruct (SPECIAL_OPERATORS (to_char p9)).
    + destruct (LoadSign i9 L7) as [[i10 L10]| |] eqn:Hsign; try discriminate.
      intros [= _ _ <-]. eapply same_layout_trans; [exact H07|].
      eapply LoadSign_layout; eassumption.
    + destruct (get i9) as [g i10]. intros [= _ _ <-].
      eapply same_layout_trans; [exact H07|]. apply same_layout_push; reflexivity.
  - intros [= _ _ <-]. exact H07.
Qed.

Lemma LoadTokens_layout (fuel : nat) (input : istream) (L L' : Lexer) :
  LoadTokens fuel input L = LexOk L' -> same_layout L L'.
Proof.
  revert input L. induction fuel as [|fuel IH]; intros input L; simpl.
  - destruct (eof input); [intros [= <-]; apply same_layout_refl | discriminate].
  - destruct (eof input); [intros [= <-]; apply same_layout_refl|].
    destruct (LoadTokens_body input L) as [[[b i1] L1]| |] eqn:Hb; try discriminate.
    pose proof (LoadTokens_body_layout _ _ _ _ _ Hb) as H1.
    destruct b.
    + intros [= <-]. exact H1.
    + intros H. eapply same_layout_trans; [exact H1|]. eapply IH. exact H.
Qed.

Lemma LoadEndl_layout (L : Lexer) : same_layout L (LoadEndl L).
Proof.
  unfold LoadEndl. destruct (last (tokens_ L)) as [t|]; [|apply same_layout_refl].
  destruct (negb (is_Newline t)); [|apply same_layout_refl].
  apply same_layout_push; reflexivity.
Qed.

Lemma size_t_mod_value : size_t_mod = 18446744073709551616.
Proof. reflexivity. Qed.

Lemma size_t_wrap_range (z : Z) : 0 <= size_t_wrap z < size_t_mod.
Proof. unfold size_t_wrap. apply Z.mod_pos_bound. rewrite size_t_mod_value. lia. Qed.

Lemma size_t_wrap_small (z : Z) : 0 <= z < size_t_mod -> size_t_wrap z = z.
Proof. intros H. unfold size_t_wrap. apply Z.mod_small. exact H. Qed.

Lemma size_t_wrap_even (k : Z) : exists k', size_t_wrap (2 * k) = 2 * k'.
Proof.
  exists (k mod 9223372036854775808). unfold size_t_wrap. rewrite size_t_mod_value.
  change 18446744073709551616 with (2 * 9223372036854775808).
  apply Zmult_mod_distr_l.
Qed.

(** With an even [indent_size_] and the odd bound [2^64 - 1], the loop of
    [LoadIndent] steps over the bound at the wrap-around and never ends. *)
Lemma LoadIndent_past_the_end (fuel : nat) (L : Lexer) (k : Z) :
  indent_size_ L = 2 * k -> 0 <= indent_size_ L < size_t_mod ->
  LoadIndent fuel (size_t_mod - 1) L = LexDiverge.
Proof.
  revert L k. induction fuel as [|fuel IH]; intros L k Hk Hr; simpl;
    rewrite size_t_mod_value in *;
    destruct (Z.ltb_spec (indent_size_ L) (18446744073709551616 - 1)); try lia;
    try reflexivity.
  destruct (size_t_wrap_even (k + 1)) as [k' Hk'].
  apply (IH _ k').
  - simpl. rewrite Hk. replace (2 * k + 2) with (2 * (k + 1)) by lia. exact Hk'.
  - simpl. pose proof (size_t_wrap_range (indent_size_ L + 2)) as Hw.
    rewrite size_t_mod_value in Hw. exact Hw.
Qed.

Lemma LoadIndent_invariant (fuel : nat) (cur : Z) (L L' : Lexer) :
  indent_invariant L -> 0 <= cur < size_t_mod ->
  LoadIndent fuel cur L = LexOk L' -> indent_invariant L'.
Proof.
  revert L. induction fuel as [|fuel IH]; intros L Hinv Hcur; simpl;
    destruct (Z.ltb_spec (indent_size_ L) cur) as [Hlt|Hge];
    try discriminate; try (intros [= <-]; exact Hinv).
  destruct Hinv as [Hr He].
  destruct (Z.eq_dec (indent_size_ L + 2) size_t_mod) as [Hwrap|Hnowrap].
  - (* the step wraps: the bound is 2^64 - 1 and the loop does not end *)
    assert (cur = size_t_mod - 1) as -> by lia.
    intros H. exfalso.
    rewrite (LoadIndent_past_the_end fuel _ 0) in H; [discriminate| |].
    + simpl. unfold size_t_wrap. rewrite Hwrap. apply Z_mod_same_full.
    + simpl. apply size_t_wrap_range.
  - apply IH; [|exact Hcur].
    assert (indent_size_ L + 2 < size_t_mod) as Hsmall.
    { rewrite size_t_mod_value in *. lia. }
    split; simpl.
    + rewrite size_t_wrap_small; lia.
    + rewrite size_t_wrap_small by lia. rewrite balance_push. simpl. lia.
Qed.

Lemma LoadDedent_invariant (fuel : nat) (cur : Z) (L L' : Lexer) :
  indent_invariant L -> 0 <= cur ->
  LoadDedent fuel cur L = LexOk L' ->
  indent_invariant L' /\ indent_size_ L' <= cur.
Proof.
  revert L. induction fuel as [|fuel IH]; intros L Hinv Hcur; simpl;
    destruct (Z.gtb_spec (indent_size_ L) cur) as [Hgt|Hle];
    try discriminate; try (intros [= <-]; split; [exact Hinv | lia]).
  destruct Hinv as [Hr He].
  apply IH; [|exact Hcur].
  split; simpl.
  - rewrite size_t_wrap_small; lia.
  - rewrite size_t_wrap_small by lia. rewrite balance_push. simpl. lia.
Qed.

Lemma LoadTab_spaces_range (b : list ascii) (i : Z) :
  0 <= i < size_t_mod -> 0 <= fst (LoadTab_spaces b i) < size_t_mod.
Proof.
  revert i. induction b as [|c rest IH]; intros i Hi; simpl; [exact Hi|].
  destruct (Ascii.eqb c c_space); [|exact Hi].
  apply IH, size_t_wrap_range.
Qed.

Lemma LoadTab_invariant (fuel : nat) (input input' : istream) (L L' : Lexer) :
  indent_invariant L -> LoadTab fuel input L = LexOk (input', L') ->
  indent_invariant L'.
Proof.
  intros Hinv. unfold LoadTab. destruct (peek input) as [p i0].
  destruct (p =? byte_int c_space).
  - pose proof (LoadTab_spaces_range (buf i0) 0) as Hi.
    destruct (LoadTab_spaces (buf i0) 0) as [i i1]. cbn [fst] in Hi.
    assert (0 <= i < size_t_mod) as Hi' by (apply Hi; rewrite size_t_mod_value; lia).
    destruct (i >? indent_size_ L).
    + destruct (LoadIndent fuel i L) as [L1| |] eqn:H1; try discriminate.
      intros [= _ <-]. eapply LoadIndent_invariant; eassumption.
    + destruct (LoadDedent fuel i L) as [L1| |] eqn:H1; try discriminate.
      intros [= _ <-]. eapply LoadDedent_invariant; [exact Hinv | | exact H1]. lia.
  - destruct (LoadDedent fuel 0 L) as [L1| |] eqn:H1; try discriminate.
    intros [= _ <-]. eapply LoadDedent_invariant; [exact Hinv | | exact H1]. lia.
Qed.

Lemma ParseString_invariant (fuel : nat) (input : istream) (L L' : Lexer) :
  indent_invariant L -> ParseString fuel input L = LexOk L' -> indent_invariant L'.
Proof.
  intros Hinv. unfold ParseString.
  destruct (LoadTab fuel input L) as [[i1 L1]| |] eqn:H1; try discriminate.
  intros H2. eapply invariant_same_layout.
  - eapply LoadTab_invariant; eassumption.
  - eapply LoadTokens_layout; eassumption.
Qed.

Lemma ParseLines_invariant (fuel : nat) (lines : list (list ascii)) (L L' : Lexer) :
  indent_invariant L -> ParseLines fuel lines L = LexOk L' -> indent_invariant L'.
Proof.
  revert L. induction lines as [|line rest IH]; intros L Hinv; simpl.
  - intros [= <-]. exact Hinv.
  - destruct (negb (StringIsComment line)); [|apply IH; exact Hinv].
    destruct (ParseString fuel (stringstream line) L) as [L1| |] eqn:H1;
      try discriminate.
    apply IH. eapply invariant_same_layout; [|apply LoadEndl_layout].
    eapply ParseString_invariant; eassumption.
Qed.

Lemma NextToken_tokens (L : Lexer) : tokens_ (NextToken L) = tokens_ L.
Proof.
  unfold NextToken.
  destruct (nth_error (tokens_ L) (current_token_index_ L)); reflexivity.
Qed.

(** C9: whenever the lexer completes on an input, the token vector it
    produced holds as many INDENT as DEDENT tokens and its last token is
    EOF. *)
Theorem indents_balance_and_eof_ends (fuel : nat) (input : string)
    (tokens : list Token) :
  lex fuel input = LexOk tokens ->
  count_Indent tokens = count_Dedent tokens /\
  last tokens = Some token_type.Eof.
Proof.
  unfold lex, Lexer_new, ParseTextOnTokens.
  destruct (ParseLines fuel _ _) as [L1| |] eqn:Hlines; try discriminate.
  destruct (LoadDedent fuel 0 L1) as [L2| |] eqn:Hded; try discriminate.
  intros [= <-]. rewrite NextToken_tokens. simpl.
  assert (indent_invariant L1) as H1.
  { eapply ParseLines_invariant; [|exact Hlines].
    split; simpl; [rewrite size_t_mod_value; lia | reflexivity]. }
  destruct (LoadDedent_invariant fuel 0 L1 L2 H1 ltac:(lia) Hded) as [[Hr He] Hle].
  split.
  - assert (balance (tokens_ L2 ++ [token_type.Eof]) = 0) as Hb.
    { rewrite balance_push. simpl. lia. }
    unfold balance in Hb. lia.
  - apply last_snoc.
Qed.

(** C9, on a class definition with nested blocks. *)
Lemma indents_balance_and_eof_ends_witness :
  count_Indent
    [token_type.Class; token_type.Id "A"; token_type.Char (ch 58);
     token_type.Newline; token_type.Indent; token_type.Def; token_type.Id "f";
     token_type.Char (ch 40); token_type.Char (ch 41); token_type.Char (ch 58);
     token_type.Newline; token_type.Indent; token_type.Return;
     token_type.Number 1; token_type.Newline; token_type.Dedent;
     token_type.Dedent; token_type.Eof]
  = count_Dedent
    [token_type.Class; token_type.Id "A"; token_type.Char (ch 58);
     token_type.Newline; token_type.Indent; token_type.Def; token_type.Id "f";
     token_type.Char (ch 40); token_type.Char (ch 41); token_type.Char (ch 58);
     token_type.Newline; token_type.Indent; token_type.Return;
     token_type.Number 1; token_type.Newline; token_type.Dedent;
     token_type.Dedent; token_type.Eof]
  /\
  last
    [token_type.Class; token_type.Id "A"; token_type.Char (ch 58);
     token_type.Newline; token_type.Indent; token_type.Def; token_type.Id "f";
     token_type.Char (ch 40); token_type.Char (ch 41); token_type.Char (ch 58);
     token_type.Newline; token_type.Indent; token_type.Return;
     token_type.Number 1; token_type.Newline; token_type.Dedent;
     token_type.Dedent; token_type.Eof]
  = Some token_type.Eof.
Proof.
  apply (indents_balance_and_eof_ends 10 "class A:
  def f():
    return 1
").
  vm_compute. reflexivity.
Defined.

(** More fuel does not change what the lexer produces. *)

Lemma LoadDedent_more_fuel (fuel : nat) (cur : Z) (L L' : Lexer) :
  LoadDedent fuel cur L = LexOk L' -> LoadDedent (S fuel) cur L = LexOk L'.
Proof.
  revert L. induction fuel as [|fuel IH]; intros L.
  - simpl. destruct (indent_size_ L >? cur); [discriminate | trivial].
  - intros H. simpl in H. change (LoadDedent (S (S fuel)) cur L)
      with (if indent_size_ L >? cur
            then LoadDedent (S fuel) cur
                   (push_back (set_indent L (size_t_wrap (indent_size_ L - 2)))
                              token_type.Dedent)
            else LexOk L).
    destruct (indent_size_ L >? cur); [apply IH; exact H | exact H].
Qed.

Lemma LoadIndent_more_fuel (fuel : nat) (cur : Z) (L L' : Lexer) :
  LoadIndent fuel cur L = LexOk L' -> LoadIndent (S fuel) cur L = LexOk L'.
Proof.
  revert L. induction fuel as [|fuel IH]; intros L.
  - simpl. destruct (indent_size_ L <? cur); [discriminate | trivial].
  - intros H. simpl in H. change (LoadIndent (S (S fuel)) cur L)
      with (if indent_size_ L <? cur
            then LoadIndent (S fuel) cur
                   (push_back (set_indent L (size_t_wrap (indent_size_ L + 2)))
                              token_type.Indent)
            else LexOk L).
    destruct (indent_size_ L <? cur); [apply IH; exact H | exact H].
Qed.

Lemma LoadTokens_more_fuel (fuel : nat) (input : istream) (L L' : Lexer) :
  LoadTokens fuel input L = LexOk L' -> LoadTokens (S fuel) input L = LexOk L'.
Proof.
  revert input L. induction fuel as [|fuel IH]; intros input L.
  - simpl. destruct (eof input); [trivial | discriminate].
  - intros H. rewrite LoadTokens_S in *.
    destruct (eof input); [exact H|].
    destruct (LoadTokens_body input L) as [[[[|] i1] L1]| |]; try exact H.
    apply IH. exact H.
Qed.

Lemma LoadTab_more_fuel (fuel : nat) (input input' : istream) (L L' : Lexer) :
  LoadTab fuel input L = LexOk (input', L') ->
  LoadTab (S fuel) input L = LexOk (input', L').
Proof.
  unfold LoadTab. destruct (peek input) as [p i0].
  destruct (p =? byte_int c_space).
  - destruct (LoadTab_spaces (buf i0) 0) as [i i1].
    destruct (i >? indent_size_ L).
    + destruct (LoadIndent fuel i L) as [L1| |] eqn:H1; try discriminate.
      rewrite (LoadIndent_more_fuel _ _ _ _ H1). trivial.
    + destruct (LoadDedent fuel i L) as [L1| |] eqn:H1; try discriminate.
      rewrite (LoadDedent_more_fuel _ _ _ _ H1). trivial.
  - destruct (LoadDedent fuel 0 L) as [L1| |] eqn:H1; try discriminate.
    rewrite (LoadDedent_more_fuel _ _ _ _ H1). trivial.
Qed.

Lemma ParseLines_more_fuel (fuel : nat) (lines : list (list ascii)) (L L' : Lexer) :
  ParseLines fuel lines L = LexOk L' -> ParseLines (S fuel) lines L = LexOk L'.
Proof.
  revert L. induction lines as [|line rest IH]; intros L; [trivial|].
  cbn [ParseLines]. destruct (negb (StringIsComment line)); [|apply IH].
  unfold ParseString.
  destruct (LoadTab fuel (stringstream line) L) as [[i1 L1]| |] eqn:H1;
    try discriminate.
  rewrite (LoadTab_more_fuel _ _ _ _ _ H1).
  destruct (LoadTokens fuel i1 L1) as [L2| |] eqn:H2; try discriminate.
  rewrite (LoadTokens_more_fuel _ _ _ _ H2). apply IH.
Qed.

(** The tokens a completed run of the lexer produced do not depend on the
    fuel it was given. *)
Lemma lex_more_fuel (fuel fuel' : nat) (input : string) (tokens : list Token) :
  (fuel <= fuel')%nat -> lex fuel input = LexOk tokens -> lex fuel' input = LexOk tokens.
Proof.
  induction 1 as [|fuel' _ IH]; [trivial|].
  intros H. specialize (IH H). revert IH.
  unfold lex, Lexer_new, ParseTextOnTokens.
  destruct (ParseLines fuel' _ _) as [L1| |] eqn:H1; try discriminate.
  rewrite (ParseLines_more_fuel _ _ _ _ H1).
  destruct (LoadDedent fuel' 0 L1) as [L2| |] eqn:H2; try discriminate.
  rewrite (LoadDedent_more_fuel _ _ _ _ H2). trivial.
Qed.

End Indentation.

Section TokenComparison.
Import parse lexer_api.

(** X1: [operator==] holds exactly of identical tokens. *)
Theorem Token_eq_iff (lhs rhs : Token) :
  Token_eq lhs rhs = true <-> lhs = rhs.
Proof.
  split.
  - destruct lhs, rhs; unfold Token_eq; simpl; try discriminate; try reflexivity;
      intros H.
    + apply Z.eqb_eq in H. congruence.
    + apply String.eqb_eq in H. congruence.
    + apply Ascii.eqb_eq in H. congruence.
    + apply String.eqb_eq in H. congruence.
  - intros <-. destruct lhs; unfold Token_eq; simpl; try reflexivity.
    + apply Z.eqb_refl.
    + apply String.eqb_refl.
    + apply Ascii.eqb_refl.
    + apply String.eqb_refl.
Qed.

End TokenComparison.

Section ReadingRuns.
Import parse props lexer_props.

Lemma not_backslash_of_pred (pred : ascii -> bool) (x : ascii) :
  pred c_backslash = false -> pred x = true -> Ascii.eqb x c_backslash = false.
Proof.
  intros Hbs Hx. destruct (Ascii.eqb x c_backslash) eqn:E; [|reflexivity].
  apply Ascii.eqb_eq in E. congruence.
Qed.

Lemma ReadString_loop_run (pred : ascii -> bool) (w : list ascii) (c : ascii)
    (rest acc : list ascii) :
  pred c_backslash = false ->
  forallb pred w = true -> pred c = false ->
  ReadString_loop pred (w ++ c :: rest) acc = (acc ++ w, c, mk_istream rest false).
Proof.
  intros Hbs. revert acc. induction w as [|x w IH]; intros acc Hw Hc.
  - simpl app. rewrite ReadString_loop_cons, Hc. simpl. rewrite app_nil_r. reflexivity.
  - simpl in Hw. apply andb_true_iff in Hw as [Hx Hw].
    change ((x :: w) ++ c :: rest) with (x :: (w ++ c :: rest)).
    rewrite ReadString_loop_cons, Hx. cbn [negb].
    rewrite (not_backslash_of_pred pred x Hbs Hx).
    rewrite (IH (acc ++ [x]) Hw Hc). rewrite <- app_assoc. reflexivity.
Qed.

Lemma ReadString_loop_to_end (pred : ascii -> bool) (w acc : list ascii) :
  pred c_backslash = false -> pred c_minus1 = false ->
  forallb pred w = true ->
  ReadString_loop pred w acc = (acc ++ w, c_minus1, mk_istream [] true).
Proof.
  intros Hbs Heof. revert acc. induction w as [|x w IH]; intros acc Hw.
  - simpl. change (to_char EOF) with c_minus1. rewrite Heof. simpl.
    rewrite app_nil_r. reflexivity.
  - simpl in Hw. apply andb_true_iff in Hw as [Hx Hw].
    rewrite ReadString_loop_cons, Hx. cbn [negb].
    rewrite (not_backslash_of_pred pred x Hbs Hx).
    rewrite (IH (acc ++ [x]) Hw). rewrite <- app_assoc. reflexivity.
Qed.

(** X2: with a predicate that rejects the backslash, [ReadString] returns the
    run of characters that satisfy it.  The character that ends the run is
    given back to the stream, unless it is a quote or 0xFF, which are
    dropped; when the run reaches the end of the stream the stream is left
    at end of file. *)
Theorem ReadString_run (pred : ascii -> bool) (w : list ascii) :
  pred c_backslash = false ->
  forallb pred w = true ->
  (forall c rest, pred c = false ->
     ReadString (mk_istream (w ++ c :: rest) false) pred =
       (w, if swallowed c then mk_istream rest false
           else mk_istream (c :: rest) false)) /\
  (pred c_minus1 = false ->
     ReadString (mk_istream w false) pred = (w, mk_istream [] true)).
Proof.
  intros Hbs Hw. split.
  - intros c rest Hc. unfold ReadString. cbn [eof eofbit buf].
    rewrite (ReadString_loop_run pred w c rest [] Hbs Hw Hc), Hc.
    rewrite app_nil_l. unfold swallowed. cbn [negb].
    destruct (Ascii.eqb c c_minus1), (Ascii.eqb c c_squote), (Ascii.eqb c c_dquote);
      reflexivity.
  - intros Heof. unfold ReadString. cbn [eof eofbit buf].
    rewrite (ReadString_loop_to_end pred w [] Hbs Heof Hw). reflexivity.
Qed.

(** X2, on a run of digits ended by a quote, by a plus sign, and by the end of the stream. *)
Lemma ReadString_run_witness :
  ReadString (mk_istream [ch 49; ch 50; c_squote; ch 97] false) digit_char
    = ([ch 49; ch 50], mk_istream [ch 97] false) /\
  ReadString (mk_istream [ch 49; ch 50; ch 43; ch 97] false) digit_char
    = ([ch 49; ch 50], mk_istream [ch 43; ch 97] false) /\
  ReadString (mk_istream [ch 49; ch 50] false) digit_char
    = ([ch 49; ch 50], mk_istream [] true).
Proof.
  destruct (ReadString_run digit_char [ch 49; ch 50] eq_refl eq_refl) as [Hrun Hend].
  split; [|split].
  - exact (Hrun c_squote [ch 97] eq_refl).
  - exact (Hrun (ch 43) [ch 97] eq_refl).
  - exact (Hend eq_refl).
Defined.

Lemma ReadString_loop_closed (q : ascii) (body : list ascii) :
  is_quote q = true ->
  forall acc rest, well_closed q body = true ->
    ReadString_loop (until_quote q) (body ++ q :: rest) acc
      = (acc ++ decode body, q, mk_istream rest false).
Proof.
  intros Hq. induction body as [|c body IH1 IH2] using list_ind_two;
    intros acc rest Hwc.
  - simpl app. rewrite ReadString_loop_cons, (until_quote_eqb q q Hq).
    rewrite Ascii.eqb_refl. simpl. rewrite app_nil_r. reflexivity.
  - cbn [well_closed] in Hwc.
    change ((c :: body) ++ q :: rest) with (c :: (body ++ q :: rest)).
    rewrite ReadString_loop_cons, (until_quote_eqb q c Hq). cbn [decode].
    destruct (Ascii.eqb c q) eqn:Hcq; [discriminate|]. cbn [negb].
    destruct (Ascii.eqb c c_backslash) eqn:Hbs.
    + destruct body as [|e body']; [discriminate|].
      cbn [tail] in IH2. change ((e :: body') ++ q :: rest) with (e :: (body' ++ q :: rest)).
      cbv iota. destruct (SPECIAL_SYMBOLS e).
      * rewrite (IH2 _ rest Hwc). rewrite <- !app_assoc. reflexivity.
      * rewrite (IH2 _ rest Hwc). reflexivity.
    + rewrite (IH1 _ rest Hwc). rewrite <- !app_assoc. reflexivity.
Qed.

Lemma decode_plain (body : list ascii) :
  forallb (fun c => negb (Ascii.eqb c c_backslash)) body = true -> decode body = body.
Proof.
  induction body as [|c body IH]; [reflexivity|]. simpl.
  intros H. apply andb_true_iff in H as [Hc Hb].
  apply negb_true_iff in Hc. rewrite Hc. f_equal. apply IH, Hb.
Qed.

(** X3: a literal that is closed lexes to its decoded body, and the stream
    continues right after the closing quote; without backslashes the value is
    the body itself. *)
Theorem LoadString_closed (q : ascii) (body rest : list ascii) (L : Lexer) :
  is_quote q = true -> well_closed q body = true ->
  LoadString (stringstream (q :: body ++ q :: rest)) L
    = (mk_istream rest false,
       push_back L (token_type.String (string_of_list_ascii (decode body)))) /\
  (forallb (fun c => negb (Ascii.eqb c c_backslash)) body = true ->
   decode body = body).
Proof.
  intros Hq Hwc. split; [|apply decode_plain].
  unfold LoadString, stringstream, get. cbn [eofbit buf].
  fold (until_quote q). unfold ReadString. cbn [eof eofbit buf].
  rewrite (ReadString_loop_closed q body Hq [] rest Hwc). rewrite app_nil_l.
  destruct (is_quote_cases q Hq) as [-> | ->]; reflexivity.
Qed.

End ReadingRuns.

Section Unrecognised.
Import parse props lexer_props.

Lemma to_char_byte_int (c : ascii) : to_char (byte_int c) = c.
Proof. destruct c as [[] [] [] [] [] [] [] []]; reflexivity. Qed.

Lemma LoadTokens_body_stuck (c : ascii) (rest : list ascii) (L : Lexer) :
  recognised c = false ->
  LoadTokens_body (mk_istream (c :: rest) false) L
    = LexOk (false, mk_istream (c :: rest) false, L).
Proof.
  unfold recognised. intros H.
  apply orb_false_iff in H as [H Hspecial].
  apply orb_false_iff in H as [H Halpha].
  apply orb_false_iff in H as [H Hunder].
  apply orb_false_iff in H as [H Hsq].
  apply orb_false_iff in H as [H Hdq].
  apply orb_false_iff in H as [H Hdigit].
  apply orb_false_iff in H as [Hspace Hhash].
  unfold LoadTokens_body, peek. cbn [eofbit buf].
  rewrite Hspace. cbn [eofbit buf]. rewrite Hhash, Hdigit. cbv beta iota.
  cbn [eofbit buf]. rewrite Hdq, Hsq. cbn [orb eofbit buf].
  rewrite Hunder, Halpha. cbn [orb eofbit buf].
  rewrite to_char_byte_int, Hspecial. reflexivity.
Qed.

(** X4: on a line whose next character is none of those the loop of
    [LoadTokens] acts on, the loop makes no progress: it does not end, for
    any amount of fuel. *)
Theorem LoadTokens_unrecognised_character (fuel : nat) (c : ascii)
    (rest : list ascii) (L : Lexer) :
  recognised c = false ->
  LoadTokens fuel (mk_istream (c :: rest) false) L = LexDiverge.
Proof.
  intros H. induction fuel as [|fuel IH]; [reflexivity|].
  rewrite LoadTokens_S. cbn [eof eofbit].
  rewrite (LoadTokens_body_stuck c rest L H). exact IH.
Qed.

(** X4, on a tilde and on a tab. *)
Lemma LoadTokens_unrecognised_character_witness :
  LoadTokens 1000 (mk_istream [ch 126; c_space; ch 51] false) Lexer_init = LexDiverge /\
  LoadTokens 1000 (mk_istream [c_tab; ch 120] false) Lexer_init = LexDiverge.
Proof.
  split.
  - exact (LoadTokens_unrecognised_character 1000 (ch 126) [c_space; ch 51]
             Lexer_init eq_refl).
  - exact (LoadTokens_unrecognised_character 1000 c_tab [ch 120] Lexer_init eq_refl).
Defined.

End Unrecognised.

Section CommentLines.
Import parse props lexer_props.

Lemma StringIsComment_spaces (n : nat) (tl : list ascii) :
  StringIsComment (repeat c_space n ++ tl) = StringIsComment tl.
Proof. induction n as [|n IH]; [reflexivity|]. simpl. exact IH. Qed.

Lemma StringIsComment_inv (line : list ascii) :
  StringIsComment line = true ->
  exists n tl, line = repeat c_space n ++ tl /\ (tl = [] \/ exists r, tl = c_hash :: r).
Proof.
  induction line as [|c line IH]; intros H.
  - exists 0%nat, []. auto.
  - simpl in H. destruct (Ascii.eqb c c_space) eqn:Hs; simpl in H.
    + apply Ascii.eqb_eq in Hs. subst c.
      destruct (IH H) as (n & tl & -> & Htl). exists (S n), tl. auto.
    + destruct (Ascii.eqb c c_hash) eqn:Hh; [|discriminate].
      apply Ascii.eqb_eq in Hh. subst c. exists 0%nat, (c_hash :: line).
      split; [reflexivity | right; eauto].
Qed.

(** X5: a line is skipped exactly when it holds only spaces, or spaces and
    then a hash; a skipped line adds no token and leaves the indentation
    level as it is, wherever it stands in the input. *)
Theorem comment_lines_are_skipped (line : list ascii) :
  (StringIsComment line = true <->
   exists n tl, line = repeat c_space n ++ tl /\ (tl = [] \/ exists r, tl = c_hash :: r)) /\
  (StringIsComment line = true ->
   forall fuel before after L,
     ParseLines fuel (before ++ line :: after) L = ParseLines fuel (before ++ after) L).
Proof.
  split; [split|].
  - apply StringIsComment_inv.
  - intros (n & tl & -> & [-> | [r ->]]); rewrite StringIsComment_spaces; reflexivity.
  - intros Hc fuel before after. induction before as [|b before IH]; intros L.
    + simpl. rewrite Hc. reflexivity.
    + simpl. destruct (negb (StringIsComment b)); [|apply IH].
      destruct (ParseString fuel (stringstream b) L); try reflexivity. apply IH.
Qed.

(** X5, on an indented comment between two lines. *)
Lemma comment_lines_are_skipped_witness :
  ParseLines 10 [[ch 120]; [c_space; c_space; c_hash; ch 97]; [ch 121]] Lexer_init
  = ParseLines 10 [[ch 120]; [ch 121]] Lexer_init.
Proof.
  exact (proj2 (comment_lines_are_skipped [c_space; c_space; c_hash; ch 97]) eq_refl
           10%nat [[ch 120]] [[ch 121]] Lexer_init).
Defined.

End CommentLines.

Section IndentationSteps.
Import parse props lexer_props.

Lemma LoadIndent_count (n : nat) :
  forall (fuel : nat) (cur : Z) (L : Lexer),
  (n <= fuel)%nat ->
  0 <= indent_size_ L -> indent_size_ L + 2 * Z.of_nat n < size_t_mod ->
  cur <= indent_size_ L + 2 * Z.of_nat n ->
  ((0 < n)%nat -> indent_size_ L + 2 * Z.of_nat n - 2 < cur) ->
  LoadIndent fuel cur L
    = LexOk (mk_Lexer (current_token_ L) (current_token_index_ L)
               (tokens_ L ++ repeat token_type.Indent n)
               (indent_size_ L + 2 * Z.of_nat n)).
Proof.
  induction n as [|n IH]; intros fuel cur L Hfuel H0 Hmax Hle Hgt.
  - destruct L as [ct ci ts ind]. cbn [indent_size_ tokens_ current_token_
      current_token_index_] in *.
    replace (ind + 2 * Z.of_nat 0) with ind in * by lia.
    cbn [repeat]. rewrite app_nil_r.
    destruct fuel; simpl; destruct (Z.ltb_spec ind cur); try lia; reflexivity.
  - destruct fuel as [|fuel]; [lia|].
    specialize (Hgt ltac:(lia)).
    simpl. destruct (Z.ltb_spec (indent_size_ L) cur) as [_|Hge]; [|lia].
    rewrite (IH fuel cur); cbn [indent_size_ push_back set_indent tokens_
      current_token_ current_token_index_];
      try rewrite size_t_wrap_small by lia; try lia.
    f_equal. f_equal.
    + rewrite <- app_assoc. reflexivity.
    + lia.
Qed.

Lemma LoadDedent_count (n : nat) :
  forall (fuel : nat) (cur : Z) (L : Lexer),
  (n <= fuel)%nat ->
  indent_size_ L < size_t_mod -> 0 <= indent_size_ L - 2 * Z.of_nat n ->
  indent_size_ L - 2 * Z.of_nat n <= cur ->
  ((0 < n)%nat -> cur < indent_size_ L - 2 * Z.of_nat n + 2) ->
  LoadDedent fuel cur L
    = LexOk (mk_Lexer (current_token_ L) (current_token_index_ L)
               (tokens_ L ++ repeat token_type.Dedent n)
               (indent_size_ L - 2 * Z.of_nat n)).
Proof.
  induction n as [|n IH]; intros fuel cur L Hfuel Hmax H0 Hle Hgt.
  - destruct L as [ct ci ts ind]. cbn [indent_size_ tokens_ current_token_
      current_token_index_] in *.
    replace (ind - 2 * Z.of_nat 0) with ind in * by lia.
    cbn [repeat]. rewrite app_nil_r.
    destruct fuel; simpl; destruct (Z.gtb_spec ind cur); try lia; reflexivity.
  - destruct fuel as [|fuel]; [lia|].
    specialize (Hgt ltac:(lia)).
    simpl. destruct (Z.gtb_spec (indent_size_ L) cur) as [_|Hge]; [|lia].
    rewrite (IH fuel cur); cbn [indent_size_ push_back set_indent tokens_
      current_token_ current_token_index_];
      try rewrite size_t_wrap_small by lia; try lia.
    f_equal. f_equal.
    + rewrite <- app_assoc. reflexivity.
    + lia.
Qed.

(** X6: from an indentation level [s] (always even) a line with [cur]
    leading spaces moves the level in whole two-space steps: deeper, it
    emits one INDENT per step up to the first even level not below [cur]
    (an odd count is rounded up); shallower, one DEDENT per step down to the
    first even level not above [cur] (an odd count is rounded down).  The
    loops end within that many iterations. *)
Theorem indentation_moves_in_steps (fuel : nat) (cur : Z) (L : Lexer) :
  indent_invariant L -> 0 <= cur -> cur + 1 < size_t_mod ->
  (Z.to_nat (steps (indent_size_ L) cur) <= fuel)%nat ->
  (indent_size_ L < cur ->
   LoadIndent fuel cur L
     = LexOk (mk_Lexer (current_token_ L) (current_token_index_ L)
                (tokens_ L ++ repeat token_type.Indent
                                (Z.to_nat (steps (indent_size_ L) cur)))
                (indent_size_ L + 2 * steps (indent_size_ L) cur))) /\
  (cur < indent_size_ L ->
   LoadDedent fuel cur L
     = LexOk (mk_Lexer (current_token_ L) (current_token_index_ L)
                (tokens_ L ++ repeat token_type.Dedent
                                (Z.to_nat (steps (indent_size_ L) cur)))
                (indent_size_ L - 2 * steps (indent_size_ L) cur))).
Proof.
  intros [Hr He] Hcur Hmax Hfuel. unfold steps in *.
  set (s := indent_size_ L) in *. set (b := balance (tokens_ L)) in *.
  split; intros Hlt.
  - assert (0 <= (Z.abs (s - cur) + 1) / 2) as Hk by (apply Z.div_pos; lia).
    assert (cur <= s + 2 * ((Z.abs (s - cur) + 1) / 2) <= cur + 1) as Hb.
    { Z.div_mod_to_equations. lia. }
    rewrite (LoadIndent_count (Z.to_nat ((Z.abs (s - cur) + 1) / 2)) fuel cur L);
      try rewrite Z2Nat.id by lia; fold s; try lia; try reflexivity.
  - assert (0 <= (Z.abs (s - cur) + 1) / 2) as Hk by (apply Z.div_pos; lia).
    assert (cur - 1 <= s - 2 * ((Z.abs (s - cur) + 1) / 2) <= cur) as Hb.
    { Z.div_mod_to_equations. lia. }
    rewrite (LoadDedent_count (Z.to_nat ((Z.abs (s - cur) + 1) / 2)) fuel cur L);
      try rewrite Z2Nat.id by lia; fold s; try lia; try reflexivity.
Qed.

(** X6, on an indentation of three spaces from level 0, then of one space from level 4. *)
Lemma indentation_moves_in_steps_witness :
  LoadIndent 5 3 Lexer_init
    = LexOk (mk_Lexer (token_type.Number 0) 0%nat
               [token_type.Indent; token_type.Indent] 4) /\
  LoadDedent 5 1
      (mk_Lexer (token_type.Number 0) 0%nat [token_type.Indent; token_type.Indent] 4)
    = LexOk (mk_Lexer (token_type.Number 0) 0%nat
               [token_type.Indent; token_type.Indent;
                token_type.Dedent; token_type.Dedent] 0).
Proof.
  split.
  - apply (proj1 (indentation_moves_in_steps 5 3 Lexer_init
                    ltac:(split; [split; vm_compute; congruence | reflexivity])
                    ltac:(lia) ltac:(reflexivity) ltac:(vm_compute; lia))).
    reflexivity.
  - apply (proj2 (indentation_moves_in_steps 5 1
                    (mk_Lexer (token_type.Number 0) 0%nat
                       [token_type.Indent; token_type.Indent] 4)
                    ltac:(split; [split; vm_compute; congruence | reflexivity])
                    ltac:(lia) ltac:(reflexivity) ltac:(vm_compute; lia))).
    reflexivity.
Defined.

End IndentationSteps.

Section WellFormedTokens.
Import parse props lexer_props.

Lemma head_ok_push (ts : list Token) (t : Token) :
  head_ok ts = true -> is_Newline t = false -> head_ok (ts ++ [t]) = true.
Proof. destruct ts; simpl; intros H Ht; [rewrite Ht; reflexivity | exact H]. Qed.

Lemma no_double_newline_cons (a b : Token) (ts : list Token) :
  no_double_newline (a :: b :: ts)
  = negb (is_Newline a && is_Newline b) && no_double_newline (b :: ts).
Proof. reflexivity. Qed.

Lemma no_double_newline_push (ts : list Token) (t : Token) :
  no_double_newline ts = true -> is_Newline t = false ->
  no_double_newline (ts ++ [t]) = true.
Proof.
  intros H Ht. induction ts as [|a ts IH]; [reflexivity|].
  destruct ts as [|b ts].
  - simpl. rewrite Ht, andb_false_r. reflexivity.
  - rewrite no_double_newline_cons in H. apply andb_true_iff in H as [Hab H].
    simpl app in *. rewrite no_double_newline_cons, Hab, (IH H). reflexivity.
Qed.

Lemma no_double_newline_endl (ts : list Token) (t : Token) :
  no_double_newline ts = true -> last ts = Some t -> is_Newline t = false ->
  no_double_newline (ts ++ [token_type.Newline]) = true.
Proof.
  intros H Hl Ht. induction ts as [|a ts IH]; [discriminate|].
  destruct ts as [|b ts].
  - simpl in Hl. injection Hl as ->. simpl. rewrite Ht. reflexivity.
  - rewrite no_double_newline_cons in H. apply andb_true_iff in H as [Hab H].
    simpl app in *. rewrite no_double_newline_cons, Hab, (IH H Hl). reflexivity.
Qed.

Lemma wf_push (L : Lexer) (t : Token) :
  lexer_wf L -> token_ok t = true -> is_Newline t = false ->
  lexer_wf (push_back L t).
Proof.
  intros (Hi & Hok & Hh & Hn) Ht Hnl. unfold lexer_wf. simpl.
  split; [exact Hi|]. split; [|split].
  - rewrite forallb_app, Hok. simpl. rewrite Ht. reflexivity.
  - apply head_ok_push; assumption.
  - apply no_double_newline_push; assumption.
Qed.

Lemma wf_set_indent (L : Lexer) (n : Z) : lexer_wf L -> lexer_wf (set_indent L n).
Proof. intros H. exact H. Qed.

Lemma LoadEndl_wf (L : Lexer) : lexer_wf L -> lexer_wf (LoadEndl L).
Proof.
  intros Hwf. unfold LoadEndl. destruct (last (tokens_ L)) as [t|] eqn:Hl; [|exact Hwf].
  destruct (is_Newline t) eqn:Ht; [exact Hwf|]. simpl.
  destruct Hwf as (Hi & Hok & Hh & Hn). unfold lexer_wf. simpl.
  split; [exact Hi|]. split; [|split].
  - rewrite forallb_app, Hok. reflexivity.
  - destruct (tokens_ L); [discriminate | exact Hh].
  - eapply no_double_newline_endl; eassumption.
Qed.

Lemma ReadString_loop_forallb (pred : ascii -> bool) (b acc : list ascii) :
  pred c_backslash = false -> pred c_minus1 = false ->
  forallb pred acc = true ->
  forallb pred (fst (fst (ReadString_loop pred b acc))) = true.
Proof.
  intros Hbs Heof. revert acc. induction b as [|c b IH]; intros acc Hacc.
  - simpl. change (to_char EOF) with c_minus1. rewrite Heof. exact Hacc.
  - rewrite ReadString_loop_cons. destruct (pred c) eqn:Hc; [|exact Hacc].
    cbn [negb]. rewrite (not_backslash_of_pred pred c Hbs Hc).
    apply IH. rewrite forallb_app, Hacc. simpl. rewrite Hc. reflexivity.
Qed.

Lemma ReadString_forallb (pred : ascii -> bool) (input : istream) :
  pred c_backslash = false -> pred c_minus1 = false ->
  forallb pred (fst (ReadString input pred)) = true.
Proof.
  intros Hbs Heof. unfold ReadString. destruct (eof input); [reflexivity|].
  pose proof (ReadString_loop_forallb pred (buf input) [] Hbs Heof eq_refl) as H.
  destruct (ReadString_loop pred (buf input) []) as [[result c] i].
  destruct (_ && _); exact H.
Qed.

Lemma digit_char_value (d : ascii) :
  digit_char d = true -> 0 <= byte_int d - 48 <= 9.
Proof.
  unfold digit_char, isdigit, of_char, byte_int.
  pose proof (N_ascii_bounded d) as Hbound.
  destruct (Z.ltb_spec (Z.of_N (N_of_ascii d)) 128); intros Hd;
    apply andb_true_iff in Hd as [H1 H2];
    apply Z.leb_le in H1; apply Z.leb_le in H2; lia.
Qed.

Lemma stoi_digits_nonneg (s : list ascii) (acc : Z) :
  0 <= acc -> forallb digit_char s = true -> 0 <= stoi_digits acc s.
Proof.
  revert acc. induction s as [|d s IH]; intros acc Hacc Hs; [exact Hacc|].
  simpl in Hs. apply andb_true_iff in Hs as [Hd Hs]. simpl.
  apply IH; [|exact Hs]. pose proof (digit_char_value d Hd). lia.
Qed.

Lemma LoadNumber_wf (input input' : istream) (L L' : Lexer) :
  lexer_wf L -> LoadNumber input L = LexOk (input', L') -> lexer_wf L'.
Proof.
  intros Hwf. unfold LoadNumber.
  pose proof (ReadString_forallb digit_char input eq_refl eq_refl) as Hd.
  fold digit_char. destruct (ReadString input digit_char) as [number i].
  cbn [fst] in Hd. unfold stoi.
  destruct number as [|d number]; [discriminate|].
  destruct (Z.leb_spec (stoi_digits 0 (d :: number)) INT_MAX) as [Hle|]; [|discriminate].
  intros [= _ <-]. apply wf_push; [exact Hwf | | reflexivity].
  cbn [token_ok]. apply andb_true_iff. split; apply Z.leb_le; [|exact Hle].
  change (0 <= stoi_digits 0 (d :: number)).
  apply stoi_digits_nonneg; [lia | exact Hd].
Qed.

Lemma LoadString_wf (input : istream) (L : Lexer) :
  lexer_wf L -> lexer_wf (snd (LoadString input L)).
Proof.
  intros Hwf. unfold LoadString. destruct (get input) as [e i].
  destruct (ReadString i _) as [dest i']. simpl.
  apply wf_push; [exact Hwf | reflexivity | reflexivity].
Qed.

Lemma KEY_WORDS_TOKEN_plain (w : string) (t : Token) :
  KEY_WORDS_TOKEN w = Some t -> token_ok t = true /\ is_Newline t = false.
Proof.
  unfold KEY_WORDS_TOKEN.
  repeat match goal with
         | |- context [String.eqb ?a ?b] => destruct (String.eqb a b)
         end; intros [= <-]; split; reflexivity.
Qed.

Lemma LoadWord_wf (input : istream) (L : Lexer) :
  lexer_wf L -> lexer_wf (snd (LoadWord input L)).
Proof.
  intros Hwf. unfold LoadWord. destruct (ReadString input _) as [w i].
  destruct (KEY_WORDS_TOKEN (string_of_list_ascii w)) as [t|] eqn:Hk; simpl.
  - destruct (KEY_WORDS_TOKEN_plain _ _ Hk). apply wf_push; assumption.
  - apply wf_push; [exact Hwf | | reflexivity]. simpl. rewrite Hk. reflexivity.
Qed.

Lemma SPECIAL_OPERATORS_special (c : ascii) :
  SPECIAL_OPERATORS c = true -> IsSpecialChar c = true.
Proof.
  destruct c as [[] [] [] [] [] [] [] []]; vm_compute; intros H;
    first [reflexivity | discriminate H].
Qed.

Lemma SPECIAL_OPERATORS_TOKEN_plain (w : string) (t : Token) :
  SPECIAL_OPERATORS_TOKEN w = Some t -> token_ok t = true /\ is_Newline t = false.
Proof.
  unfold SPECIAL_OPERATORS_TOKEN.
  repeat match goal with
         | |- context [String.eqb ?a ?b] => destruct (String.eqb a b)
         end; intros [= <-]; split; reflexivity.
Qed.

Lemma get_after_peek (s : istream) : fst (get (snd (peek s))) = fst (peek s).
Proof.
  unfold peek, get. destruct s as [b [|]]; [reflexivity|].
  destruct b as [|c rest]; reflexivity.
Qed.

Lemma LoadSign_wf (input input' : istream) (L L' : Lexer) :
  lexer_wf L -> SPECIAL_OPERATORS (to_char (fst (get input))) = true ->
  LoadSign input L = LexOk (input', L') -> lexer_wf L'.
Proof.
  intros Hwf Hop. unfold LoadSign. destruct (get input) as [f i]. cbn [fst] in Hop.
  destruct (peek i) as [p i2]. destruct (p =? byte_int c_equals).
  - destruct (get i2) as [s2 i3].
    destruct (SPECIAL_OPERATORS_TOKEN _) as [t|] eqn:Hk; intros [= _ <-].
    destruct (SPECIAL_OPERATORS_TOKEN_plain _ _ Hk). apply wf_push; assumption.
  - intros [= _ <-]. apply wf_push; [exact Hwf | | reflexivity].
    simpl. apply SPECIAL_OPERATORS_special, Hop.
Qed.

Lemma LoadTokens_body_wf (input input' : istream) (L L' : Lexer) (b : bool) :
  lexer_wf L -> LoadTokens_body input L = LexOk (b, input', L') -> lexer_wf L'.
Proof.
  intros Hwf. unfold LoadTokens_body.
  destruct (peek input) as [p0 i0].
  destruct (peek (if p0 =? byte_int c_space then ignore i0 else i0)) as [p1 i1].
  destruct (p1 =? byte_int c_hash); [intros [= _ _ <-]; exact Hwf|].
  destruct (peek i1) as [p2 i2].
  destruct (if isdigit p2 then LoadNumber i2 L else LexOk (i2, L))
    as [[i3 L3]| |] eqn:Hnum; try discriminate.
  assert (lexer_wf L3) as H3.
  { destruct (isdigit p2).
    - eapply LoadNumber_wf; eassumption.
    - injection Hnum as _ <-. exact Hwf. }
  destruct (peek i3) as [p4 i4].
  destruct (if (p4 =? byte_int c_dquote) || (p4 =? byte_int c_squote)
            then LoadString i4 L3 else (i4, L3)) as [i5 L5] eqn:Hstr.
  assert (lexer_wf L5) as H5.
  { destruct ((p4 =? byte_int c_dquote) || (p4 =? byte_int c_squote)).
    - pose proof (LoadString_wf i4 L3 H3) as H. rewrite Hstr in H. exact H.
    - injection Hstr as _ <-. exact H3. }
  destruct (peek i5) as [p6 i6].
  destruct (if (p6 =? byte_int c_underscore) || isalpha p6
            then LoadWord i6 L5 else (i6, L5)) as [i7 L7] eqn:Hword.
  assert (lexer_wf L7) as H7.
  { destruct ((p6 =? byte_int c_underscore) || isalpha p6).
    - pose proof (LoadWord_wf i6 L5 H5) as H. rewrite Hword in H. exact H.
    - injection Hword as _ <-. exact H5. }
  pose proof (peek_idempotent i7) as Hpp. pose proof (get_after_peek i7) as Hgp.
  destruct (peek i7) as [p8 i8]. cbn [fst snd] in Hpp, Hgp.
  destruct (IsSpecialChar (to_char p8)) eqn:Hsp.
  - rewrite Hpp. destruct (SPECIAL_OPERATORS (to_char p8)) eqn:Hop.
    + destruct (LoadSign i8 L7) as [[i10 L10]| |] eqn:Hsign; try discriminate.
      intros [= _ _ <-]. eapply LoadSign_wf; [exact H7 | | exact Hsign].
      rewrite Hgp. exact Hop.
    + destruct (get i8) as [g i10]. cbn [fst] in Hgp. subst g.
      intros [= _ _ <-]. apply wf_push; [exact H7 | exact Hsp | reflexivity].
  - intros [= _ _ <-]. exact H7.
Qed.

Lemma LoadTokens_wf (fuel : nat) (input : istream) (L L' : Lexer) :
  lexer_wf L -> LoadTokens fuel input L = LexOk L' -> lexer_wf L'.
Proof.
  revert input L. induction fuel as [|fuel IH]; intros input L Hwf; simpl.
  - destruct (eof input); [intros [= <-]; exact Hwf | discriminate].
  - destruct (eof input); [intros [= <-]; exact Hwf|].
    destruct (LoadTokens_body input L) as [[[b i1] L1]| |] eqn:Hb; try discriminate.
    pose proof (LoadTokens_body_wf _ _ _ _ _ Hwf Hb) as H1.
    destruct b; [intros [= <-]; exact H1 | apply IH; exact H1].
Qed.

Lemma LoadIndent_wf (fuel : nat) (cur : Z) (L L' : Lexer) :
  lexer_wf L -> LoadIndent fuel cur L = LexOk L' -> lexer_wf L'.
Proof.
  revert L. induction fuel as [|fuel IH]; intros L Hwf; simpl;
    destruct (indent_size_ L <? cur); try discriminate;
    try (intros [= <-]; exact Hwf).
  apply IH. apply wf_push; [apply wf_set_indent, Hwf | reflexivity | reflexivity].
Qed.

Lemma LoadDedent_wf (fuel : nat) (cur : Z) (L L' : Lexer) :
  lexer_wf L -> LoadDedent fuel cur L = LexOk L' -> lexer_wf L'.
Proof.
  revert L. induction fuel as [|fuel IH]; intros L Hwf; simpl;
    destruct (indent_size_ L >? cur); try discriminate;
    try (intros [= <-]; exact Hwf).
  apply IH. apply wf_push; [apply wf_set_indent, Hwf | reflexivity | reflexivity].
Qed.

Lemma LoadTab_wf (fuel : nat) (input input' : istream) (L L' : Lexer) :
  lexer_wf L -> LoadTab fuel input L = LexOk (input', L') -> lexer_wf L'.
Proof.
  intros Hwf. unfold LoadTab. destruct (peek input) as [p i0].
  destruct (p =? byte_int c_space).
  - destruct (LoadTab_spaces (buf i0) 0) as [i i1].
    destruct (i >? indent_size_ L).
    + destruct (LoadIndent fuel i L) as [L1| |] eqn:H1; try discriminate.
      intros [= _ <-]. eapply LoadIndent_wf; eassumption.
    + destruct (LoadDedent fuel i L) as [L1| |] eqn:H1; try discriminate.
      intros [= _ <-]. eapply LoadDedent_wf; eassumption.
  - destruct (LoadDedent fuel 0 L) as [L1| |] eqn:H1; try discriminate.
    intros [= _ <-]. eapply LoadDedent_wf; eassumption.
Qed.

Lemma ParseLines_wf (fuel : nat) (lines : list (list ascii)) (L L' : Lexer) :
  lexer_wf L -> ParseLines fuel lines L = LexOk L' -> lexer_wf L'.
Proof.
  revert L. induction lines as [|line rest IH]; intros L Hwf; simpl.
  - intros [= <-]. exact Hwf.
  - destruct (negb (StringIsComment line)); [|apply IH; exact Hwf].
    unfold ParseString.
    destruct (LoadTab fuel (stringstream line) L) as [[i1 L1]| |] eqn:H1;
      try discriminate.
    destruct (LoadTokens fuel i1 L1) as [L2| |] eqn:H2; try discriminate.
    apply IH. apply LoadEndl_wf. eapply LoadTokens_wf; [|exact H2].
    eapply LoadTab_wf; eassumption.
Qed.

(** Before [NextToken] moves the cursor, the constructor has a well-formed
    lexer object whose last token is EOF. *)
Lemma Lexer_new_inv (fuel : nat) (input : string) (L : Lexer) :
  Lexer_new fuel input = LexOk L ->
  exists L0, lexer_wf (LoadEof L0) /\ L = NextToken (LoadEof L0).
Proof.
  unfold Lexer_new, ParseTextOnTokens.
  destruct (ParseLines fuel _ _) as [L1| |] eqn:Hlines; try discriminate.
  destruct (LoadDedent fuel 0 L1) as [L2| |] eqn:Hded; try discriminate.
  intros [= <-]. exists L2. split; [|reflexivity].
  apply wf_push; [|reflexivity|reflexivity].
  eapply LoadDedent_wf; [|exact Hded]. eapply ParseLines_wf; [|exact Hlines].
  repeat split.
Qed.


(** X8: the token vector of a completed run never starts with NEWLINE and
    never holds two NEWLINE tokens in a row. *)
Theorem lexed_newlines_are_single (fuel : nat) (input : string)
    (tokens : list Token) :
  lex fuel input = LexOk tokens ->
  head_ok tokens = true /\ no_double_newline tokens = true.
Proof.
  unfold lex. destruct (Lexer_new fuel input) as [L| |] eqn:HL; try discriminate.
  intros [= <-]. destruct (Lexer_new_inv _ _ _ HL) as (L0 & (_ & _ & Hh & Hn) & ->).
  rewrite NextToken_tokens. split; assumption.
Qed.

End WellFormedTokens.

Section Cursor.
Import parse props lexer_props.

Lemma NextToken_iter (L : Lexer) (m : nat) :
  current_token_index_ L = 0%nat ->
  tokens_ (Nat.iter m NextToken L) = tokens_ L /\
  current_token_index_ (Nat.iter m NextToken L) = Nat.min m (length (tokens_ L)) /\
  ((1 <= m)%nat -> tokens_ L <> [] ->
   nth_error (tokens_ L) (Nat.min m (length (tokens_ L)) - 1)
     = Some (current_token_ (Nat.iter m NextToken L))).
Proof.
  intros Hidx. induction m as [|m (Ht & Hi & Hc)].
  - simpl. rewrite Hidx. split; [reflexivity|]. split; [reflexivity|]. lia.
  - rewrite Nat.iter_succ. set (Lm := Nat.iter m NextToken L) in *.
    unfold NextToken. rewrite Ht, Hi.
    destruct (Nat.lt_ge_cases m (length (tokens_ L))) as [Hlt|Hge].
    + rewrite Nat.min_l by lia.
      destruct (nth_error (tokens_ L) m) as [t|] eqn:Hn.
      * cbn [tokens_ current_token_index_ current_token_].
        split; [reflexivity|]. split; [lia|]. intros _ _.
        replace (Nat.min (S m) (length (tokens_ L)) - 1)%nat with m by lia.
        exact Hn.
      * apply nth_error_None in Hn. lia.
    + rewrite Nat.min_r by lia.
      destruct (nth_error (tokens_ L) (length (tokens_ L))) as [t|] eqn:Hn.
      * assert (nth_error (tokens_ L) (length (tokens_ L)) = None) as Hnone
          by (apply nth_error_None; lia).
        congruence.
      * split; [exact Ht|]. split; [lia|]. intros _ Hne.
        destruct m as [|m'].
        -- destruct (tokens_ L); [congruence | simpl in Hge; lia].
        -- replace (Nat.min (S (S m')) (length (tokens_ L)) - 1)%nat
             with (Nat.min (S m') (length (tokens_ L)) - 1)%nat by lia.
           apply Hc; [lia | exact Hne].
Qed.

(** X9: once the lexer is constructed, the current token is the first one;
    each [NextToken] moves to the next token, and at the end of the vector
    the cursor stays on the last token, which is EOF, however often
    [NextToken] is called. *)
Theorem NextToken_walks_and_stops (fuel : nat) (input : string) (L : Lexer) :
  Lexer_new fuel input = LexOk L ->
  forall n : nat,
    nth_error (tokens_ L) (Nat.min n (length (tokens_ L) - 1))
      = Some (CurrentToken (Nat.iter n NextToken L)) /\
    ((length (tokens_ L) - 1 <= n)%nat ->
     CurrentToken (Nat.iter n NextToken L) = token_type.Eof).
Proof.
  intros HL n. destruct (Lexer_new_inv _ _ _ HL) as (L0 & (Hidx & _) & ->).
  rewrite NextToken_tokens. rewrite <- Nat.iter_succ_r.
  destruct (NextToken_iter (LoadEof L0) (S n) Hidx) as (_ & _ & Hc).
  assert (tokens_ (LoadEof L0) <> []) as Hne.
  { simpl. destruct (tokens_ L0); discriminate. }
  specialize (Hc ltac:(lia) Hne). unfold CurrentToken.
  assert (length (tokens_ (LoadEof L0)) = S (length (tokens_ L0))) as Hlen.
  { simpl. rewrite length_app. simpl. lia. }
  replace (Nat.min n (length (tokens_ (LoadEof L0)) - 1))
    with (Nat.min (S n) (length (tokens_ (LoadEof L0))) - 1)%nat by lia.
  split; [exact Hc|]. intros Hn.
  assert (Nat.min (S n) (length (tokens_ (LoadEof L0))) - 1 = length (tokens_ L0))%nat
    as Hlast.
  { lia. }
  rewrite Hlast in Hc.
  change (tokens_ (LoadEof L0)) with (tokens_ L0 ++ [token_type.Eof]) in Hc.
  rewrite nth_error_app2 in Hc by lia. rewrite Nat.sub_diag in Hc.
  cbn [nth_error] in Hc. congruence.
Qed.

End Cursor.

Section StringAppend.

Lemma string_append_assoc (a b c : string) :
  String.append a (String.append b c) = String.append (String.append a b) c.
Proof.
  induction a as [|x a IH]; [reflexivity|].
  change (String x (String.append a (String.append b c))
          = String x (String.append (String.append a b) c)).
  f_equal. exact IH.
Qed.

Lemma string_append_nil_r (a : string) : String.append a "" = a.
Proof.
  induction a as [|x a IH]; [reflexivity|].
  change (String x (String.append a "") = String x a). f_equal. exact IH.
Qed.

End StringAppend.

Section OutputIsAppendOnly.
Import statement runtime ast eval_props.

Lemma State_after_after (o w : string) (st : State) :
  State_after o (State_after w st) = State_after (String.append o w) st.
Proof. unfold State_after. simpl. rewrite string_append_assoc. reflexivity. Qed.

Lemma State_after_empty (h : list Instance) (o : string) :
  State_after o (mk_State h "") = mk_State h o.
Proof. unfold State_after. simpl. rewrite string_append_nil_r. reflexivity. Qed.

Lemma appends_only_const {A} (r : Result A) :
  appends_only (fun e => (e, r)).
Proof.
  intros c h o. unfold after_output. simpl. rewrite State_after_empty. reflexivity.
Qed.

Lemma appends_only_st_const {A} (r : Result A) :
  appends_only_st (fun st => (st, r)).
Proof.
  intros h o. unfold after_output_st. simpl. rewrite State_after_empty. reflexivity.
Qed.

Lemma appends_only_bind {A B} (m : M Env A) (k : A -> M Env B) :
  appends_only m -> (forall a, appends_only (k a)) -> appends_only (bind m k).
Proof.
  intros Hm Hk c h o. unfold bind. rewrite (Hm c h o).
  destruct (m (c, mk_State h "")) as [[c1 [h1 w]] r]. unfold after_output at 1.
  cbn [fst snd]. unfold State_after at 1. cbn [heap out].
  destruct r as [a| | |]; try reflexivity.
  rewrite (Hk a c1 h1 (String.append o w)), (Hk a c1 h1 w).
  destruct (k a (c1, mk_State h1 "")) as [[c2 st2] r2]. unfold after_output.
  cbn [fst snd]. rewrite State_after_after. reflexivity.
Qed.

Lemma appends_only_st_bind {A B} (m : M State A) (k : A -> M State B) :
  appends_only_st m -> (forall a, appends_only_st (k a)) -> appends_only_st (bind m k).
Proof.
  intros Hm Hk h o. unfold bind. rewrite (Hm h o).
  destruct (m (mk_State h "")) as [[h1 w] r]. unfold after_output_st at 1.
  cbn [fst snd]. unfold State_after at 1. cbn [heap out].
  destruct r as [a| | |]; try reflexivity.
  rewrite (Hk a h1 (String.append o w)), (Hk a h1 w).
  destruct (k a (mk_State h1 "")) as [st2 r2]. unfold after_output_st.
  cbn [fst snd]. rewrite State_after_after. reflexivity.
Qed.

Lemma appends_only_lift {A} (m : M State A) :
  appends_only_st m -> appends_only (lift m).
Proof.
  intros Hm c h o. unfold lift. cbn [fst snd]. rewrite (Hm h o).
  destruct (m (mk_State h "")) as [st1 r]. reflexivity.
Qed.

Lemma appends_only_st_write (s : string) : appends_only_st (write s).
Proof. intros h o. reflexivity. Qed.

Lemma appends_only_st_instance_at (l : loc) : appends_only_st (instance_at l).
Proof.
  intros h o. unfold instance_at, after_output_st. cbn [heap].
  destruct (h !! l); cbn [fst snd]; rewrite State_after_empty; reflexivity.
Qed.

Lemma appends_only_st_Own (i : Instance) : appends_only_st (Own_instance i).
Proof.
  intros h o. unfold Own_instance, after_output_st, State_after. simpl.
  rewrite string_append_nil_r. reflexivity.
Qed.

Lemma appends_only_st_Fields_store (l : loc) (f : string) (v : ObjectHolder) :
  appends_only_st (Fields_store l f v).
Proof.
  intros h o. unfold Fields_store, after_output_st, State_after. cbn [heap out].
  destruct (h !! l); simpl; rewrite string_append_nil_r; reflexivity.
Qed.

Lemma appends_only_closure_store (k : string) (v : ObjectHolder) :
  appends_only (closure_store k v).
Proof.
  intros c h o. unfold closure_store, after_output. simpl.
  rewrite State_after_empty. reflexivity.
Qed.

Lemma appends_only_VariableValue (ids : list string) :
  appends_only (VariableValue_Execute ids).
Proof.
  intros c h o. unfold VariableValue_Execute, after_output. simpl.
  rewrite State_after_empty. f_equal.
  revert c. induction ids as [|x ids IH]; intros c; [reflexivity|].
  simpl. destruct (c !! x) as [v|]; [|reflexivity].
  destruct ids as [|y ids]; [reflexivity|].
  destruct (TryAs_ClassInstance v) as [l|]; [|reflexivity].
  destruct (h !! l) as [i|]; [|reflexivity]. apply IH.
Qed.

Lemma appends_only_st_DummyContext (m : M State unit) :
  appends_only_st (with_DummyContext m).
Proof.
  intros h o. unfold with_DummyContext, after_output_st, State_after. cbn [heap out].
  destruct (m (mk_State h "")) as [st1 [u| | |]]; simpl;
    rewrite string_append_nil_r; reflexivity.
Qed.

Section GivenExecutable.

Variable E : Statement -> M Env ObjectHolder.
Hypothesis E_appends_only : forall s, appends_only (E s).

Lemma appends_only_st_body (closure : Closure) (s : Statement) :
  appends_only_st
    (fun st => let '((_, st'), result) := E s (closure, st) in (st', result)).
Proof.
  intros h o. rewrite (E_appends_only s closure h o).
  destruct (E s (closure, mk_State h "")) as [[c1 st1] r]. reflexivity.
Qed.

Ltac append_only_step :=
  first
    [ apply appends_only_bind | apply appends_only_st_bind
    | apply appends_only_lift
    | apply appends_only_const | apply appends_only_st_const
    | apply appends_only_st_write | apply appends_only_st_instance_at
    | apply appends_only_st_Own | apply appends_only_st_Fields_store
    | apply appends_only_closure_store | apply appends_only_VariableValue
    | apply appends_only_st_DummyContext
    | apply E_appends_only | apply appends_only_st_body
    | assumption
    | match goal with
      | |- forall _, _ => intro
      | |- appends_only (match ?x with _ => _ end) => destruct x
      | |- appends_only_st (match ?x with _ => _ end) => destruct x
      | |- appends_only (if ?x then _ else _) => destruct x
      | |- appends_only_st (if ?x then _ else _) => destruct x
      end ].

Ltac append_only :=
  unfold ret, throw, undefined, out_of_fuel, null_operands; repeat append_only_step.

Lemma appends_only_st_Call (self : loc) (method : string) (args : list ObjectHolder) :
  appends_only_st (Call E self method args).
Proof.
  unfold Call. append_only.
Qed.

Lemma appends_only_st_Object_Print (fuel : nat) (obj : Object) :
  appends_only_st (Object_Print E fuel obj).
Proof.
  revert obj. induction fuel as [|fuel IH]; intros obj; destruct obj; simpl;
    append_only; try apply appends_only_st_Call; append_only; try apply IH.
Qed.

Lemma appends_only_st_instance_has (h : ObjectHolder) (method : string) :
  appends_only_st (instance_has h method).
Proof. unfold instance_has. append_only. Qed.

Lemma appends_only_st_Equal (lhs rhs : ObjectHolder) :
  appends_only_st (Equal E lhs rhs).
Proof.
  unfold Equal. append_only;
    first [apply appends_only_st_instance_has | apply appends_only_st_Call | idtac];
    append_only; try apply appends_only_st_Call; append_only.
Qed.

Lemma appends_only_st_Less (lhs rhs : ObjectHolder) :
  appends_only_st (Less E lhs rhs).
Proof.
  unfold Less. append_only;
    first [apply appends_only_st_instance_has | apply appends_only_st_Call | idtac];
    append_only; try apply appends_only_st_Call; append_only.
Qed.

Lemma appends_only_st_Comparator (cmp : Comparator) (lhs rhs : ObjectHolder) :
  appends_only_st (Comparator_call E cmp lhs rhs).
Proof.
  destruct cmp; simpl; unfold NotEqual, Greater, GreaterOrEqual, LessOrEqual;
    append_only;
    repeat first [apply appends_only_st_Equal | apply appends_only_st_Less
                 | append_only_step].
Qed.

Lemma appends_only_Execute_args (args : list Statement) :
  appends_only (Execute_args E args).
Proof. induction args as [|a args IH]; simpl; append_only. Qed.

Lemma appends_only_Compound (ss : list Statement) :
  appends_only (Compound_Execute E ss).
Proof. induction ss as [|a ss IH]; simpl; append_only. Qed.

Lemma appends_only_Print_loop (fuel : nat) (first_arg : bool) (args : list Statement) :
  appends_only (Print_loop E fuel first_arg args).
Proof.
  revert first_arg. induction args as [|a args IH]; intros first_arg; simpl;
    append_only; try apply appends_only_st_Object_Print; apply IH.
Qed.

Lemma appends_only_MethodBody (body : Statement) :
  appends_only (MethodBody_Execute E body).
Proof.
  intros c h o. unfold MethodBody_Execute. rewrite (E_appends_only body c h o).
  destruct (E body (c, mk_State h "")) as [[c1 st1] [v|[w|v]| |]]; reflexivity.
Qed.

Lemma appends_only_node (fuel : nat) (s : Statement) :
  appends_only (Execute_node E fuel s).
Proof.
  destruct s; simpl;
    try apply appends_only_MethodBody;
    try apply appends_only_Compound;
    unfold Assignment_Execute, FieldAssignment_Execute, NewInstance_Execute,
      MethodCall_Execute, Return_Execute, Print_Execute, Stringify_Execute,
      Add_Execute, Sub_Execute, Mult_Execute, Div_Execute, Or_Execute,
      And_Execute, Not_Execute, Comparison_Execute, IfElse_Execute;
    append_only;
    repeat first
      [ apply appends_only_Execute_args | apply appends_only_st_Call
      | apply appends_only_Print_loop | apply appends_only_st_Object_Print
      | apply appends_only_st_instance_has | apply appends_only_st_Comparator
      | append_only_step ].
Qed.

End GivenExecutable.

Lemma appends_only_Execute (fuel : nat) (s : Statement) :
  appends_only (Execute fuel s).
Proof.
  revert s. induction fuel as [|fuel IH]; intros s.
  - apply appends_only_const.
  - apply appends_only_node. exact IH.
Qed.

End OutputIsAppendOnly.

Section Printing.
Import statement runtime ast eval_props.

(** X10: evaluation treats the output written so far as opaque and only adds
    to its end: started with any text [o] already written, a node runs
    exactly as it does on an empty output, with [o] in front of what it
    writes. *)
Theorem output_is_append_only (fuel : nat) (s : Statement) (c : Closure)
    (h : list Instance) (o : string) :
  Execute fuel s (c, mk_State h o)
    = after_output o (Execute fuel s (c, mk_State h "")).
Proof. apply appends_only_Execute. Qed.

(** X11: when [Stringify arg] returns the text [s], [Print [arg]] run from the
    same closure and world ends in the same closure and store and writes
    exactly [s] and a line feed. *)
Theorem Stringify_matches_Print (fuel : nat) (arg : Statement) (e : Env)
    (c : Closure) (st : State) (s : string) :
  Execute (S fuel) (Stringify arg) e = ((c, st), Returns (Some (String s))) ->
  Execute (S fuel) (Print [arg]) e
    = ((c, mk_State (heap st) (String.append (out st) (String.append s endl))),
       Returns None).
Proof.
  intros H. rewrite Execute_S in *. cbn [Execute_node] in *.
  unfold Stringify_Execute in H. unfold Print_Execute. cbn [Print_loop negb].
  unfold bind in *. unfold ret at 1.
  destruct (Execute fuel arg e) as [[c1 [h1 o1]] [obj| | |]]; try discriminate.
  destruct obj as [o|].
  - unfold lift, with_DummyContext in H. cbn [fst snd heap out] in H.
    unfold lift at 1. cbn [fst snd].
    rewrite (appends_only_st_Object_Print (Execute fuel)
               (appends_only_Execute fuel) fuel o h1 o1).
    destruct (Object_Print (Execute fuel) fuel o (mk_State h1 ""))
      as [[h2 w] [u| | |]]; try discriminate.
    unfold ret in H. injection H as <- <- <-.
    unfold after_output_st, State_after, write, lift, ret. cbn [fst snd heap out].
    rewrite string_append_assoc. reflexivity.
  - unfold ret in H. injection H as <- <- <-.
    unfold lift, write, ret. cbn [fst snd heap out].
    rewrite string_append_assoc. reflexivity.
Qed.

End Printing.

Section StoreAndLookup.
Import statement runtime ast props eval_props.

(** X12: an assignment stores the holder its right-hand side returned under
    the name, returns that holder, and a later lookup of the name gives it
    back; lookups of other names are as before. *)
Theorem assignment_then_lookup (fuel : nat) (x : string) (rv : Statement)
    (e : Env) (c1 : Closure) (st1 : State) (h : ObjectHolder) :
  Execute fuel rv e = ((c1, st1), Returns h) ->
  Execute (S fuel) (Assignment x rv) e = ((<[x := h]> c1, st1), Returns h) /\
  (forall fuel',
     Execute (S fuel') (VariableValue [x]) (<[x := h]> c1, st1)
       = ((<[x := h]> c1, st1), Returns h)) /\
  (forall fuel' y, y <> x ->
     snd (Execute (S fuel') (VariableValue [y]) (<[x := h]> c1, st1))
       = snd (Execute (S fuel') (VariableValue [y]) (c1, st1))).
Proof.
  intros H. split; [|split].
  - rewrite Execute_S. cbn [Execute_node]. unfold Assignment_Execute, bind.
    rewrite H. reflexivity.
  - intros fuel'. rewrite Execute_S. cbn [Execute_node].
    unfold VariableValue_Execute. cbn [fst snd VariableValue_walk].
    rewrite lookup_insert_eq. reflexivity.
  - intros fuel' y Hy. rewrite !Execute_S. cbn [Execute_node].
    unfold VariableValue_Execute. cbn [fst snd VariableValue_walk].
    rewrite lookup_insert_ne by congruence. reflexivity.
Qed.

(** X13: a field assignment through a dotted path that leads to an instance
    writes the holder of its right-hand side into that instance and returns
    it; the field then reads back through every name bound to the same
    instance. *)
Theorem field_write_visible_through_aliases (fuel : nat) (path : list string)
    (field : string) (rv : Statement) (c c1 : Closure) (st st1 : State)
    (l : loc) (inst : Instance) (h : ObjectHolder) :
  VariableValue_walk st path c = Returns (Some (ClassInstance l)) ->
  Execute fuel rv (c, st) = ((c1, st1), Returns h) ->
  heap st1 !! l = Some inst ->
  Execute (S fuel) (FieldAssignment path field rv) (c, st)
    = ((c1, mk_State (<[l := mk_Instance (cls_ inst) (<[field := h]> (closure_ inst))]>
                       (heap st1)) (out st1)),
       Returns h) /\
  (forall fuel' y, c1 !! y = Some (Some (ClassInstance l)) ->
     Execute (S fuel') (VariableValue [y; field])
       (c1, mk_State (<[l := mk_Instance (cls_ inst) (<[field := h]> (closure_ inst))]>
                       (heap st1)) (out st1))
     = ((c1, mk_State (<[l := mk_Instance (cls_ inst) (<[field := h]> (closure_ inst))]>
                        (heap st1)) (out st1)),
        Returns h)).
Proof.
  intros Hpath Hrv Hheap. split.
  - rewrite Execute_S. cbn [Execute_node].
    unfold FieldAssignment_Execute, VariableValue_Execute, bind. cbn [fst snd].
    rewrite Hpath. cbn [TryAs_ClassInstance]. rewrite Hrv.
    unfold lift, Fields_store. cbn [fst snd]. rewrite Hheap. reflexivity.
  - intros fuel' y Hy. rewrite Execute_S. cbn [Execute_node].
    unfold VariableValue_Execute. cbn [fst snd VariableValue_walk heap].
    unfold ObjectHolder in *. rewrite Hy. cbn [TryAs_ClassInstance].
    rewrite list_lookup_insert_eq by (eapply lookup_lt_Some; exact Hheap).
    cbn [closure_]. rewrite lookup_insert_eq. reflexivity.
Qed.

Lemma Compound_Execute_app (E : Statement -> M Env ObjectHolder)
    (a b : list Statement) (e : Env) :
  Compound_Execute E (a ++ b) e =
  match Compound_Execute E a e with
  | (e1, Returns _) => Compound_Execute E b e1
  | other => other
  end.
Proof.
  revert e. induction a as [|s a IH]; intros e; [reflexivity|].
  simpl. unfold bind. destruct (E s e) as [e1 [v| | |]]; try reflexivity.
  apply IH.
Qed.

Lemma Compound_Execute_None (E : Statement -> M Env ObjectHolder)
    (a : list Statement) (e e1 : Env) (v : ObjectHolder) :
  Compound_Execute E a e = (e1, Returns v) -> v = None.
Proof.
  revert e. induction a as [|s a IH]; intros e; simpl.
  - unfold ret. congruence.
  - unfold bind. destruct (E s e) as [e2 [w| | |]]; try discriminate. apply IH.
Qed.

(** X14: a sequence of statements runs as its first part followed by its
    second part, the second not being run when the first raises; a
    [Compound] that completes returns the empty holder, whatever its
    statements returned. *)
Theorem Compound_runs_in_order (fuel : nat) (a b : list Statement) (e : Env) :
  Execute (S fuel) (Compound (a ++ b)) e =
    match Execute (S fuel) (Compound a) e with
    | (e1, Returns _) => Execute (S fuel) (Compound b) e1
    | other => other
    end /\
  (forall e1 v, Execute (S fuel) (Compound a) e = (e1, Returns v) -> v = None).
Proof.
  rewrite !Execute_S. cbn [Execute_node]. split.
  - apply Compound_Execute_app.
  - intros e1 v. apply Compound_Execute_None.
Qed.

(** X15: when the class of the node has no [__init__] that takes as many
    parameters as there are arguments, [NewInstance] still evaluates the
    arguments, calls nothing, raises nothing, and returns a new copy of the
    instance the node owns. *)
Theorem NewInstance_without_matching_init (fuel : nat) (node : loc)
    (args : list Statement) (e : Env) (c1 : Closure) (st1 : State)
    (actual : list ObjectHolder) (inst : Instance) :
  Execute_args (Execute fuel) args e = ((c1, st1), Returns actual) ->
  heap st1 !! node = Some inst ->
  HasMethod inst INIT_METHOD (length args) = false ->
  Execute (S fuel) (NewInstance node args) e
    = ((c1, mk_State (heap st1 ++ [inst]) (out st1)),
       Returns (Some (ClassInstance (length (heap st1))))).
Proof.
  intros Hargs Hheap Hno. rewrite Execute_S. cbn [Execute_node].
  unfold NewInstance_Execute, bind. rewrite Hargs.
  unfold lift, instance_at. cbn [fst snd]. rewrite Hheap, Hno.
  unfold ret. cbn [fst snd]. rewrite ?Hheap. reflexivity.
Qed.

End StoreAndLookup.

Section PrintFormat.
Import statement runtime ast props eval_props.

Lemma Object_Print_plain (E : Statement -> M Env ObjectHolder) (fuel : nat)
    (o : Object) (st : State) :
  TryAs_ClassInstance (Some o) = None ->
  Object_Print E fuel o st = write (render (Some o)) st.
Proof. destruct fuel, o; simpl; try discriminate; reflexivity. Qed.

Lemma join_spaces_cons (t : string) (texts : list string) :
  join_spaces (t :: texts)
  = String.append t
      (fold_right (fun u acc => String.append " " (String.append u acc)) "" texts).
Proof.
  revert t. induction texts as [|u texts IH]; intros t.
  - simpl. rewrite string_append_nil_r. reflexivity.
  - change (join_spaces (t :: u :: texts))
      with (String.append t (String.append " " (join_spaces (u :: texts)))).
    rewrite (IH u). reflexivity.
Qed.

Lemma Execute_name (fuel : nat) (x : string) (h : ObjectHolder) (c : Closure)
    (st : State) :
  c !! x = Some h ->
  Execute (S fuel) (VariableValue [x]) (c, st) = ((c, st), Returns h).
Proof.
  intros Hx. rewrite Execute_S. cbn [Execute_node].
  unfold VariableValue_Execute. cbn [fst snd VariableValue_walk].
  unfold ObjectHolder in *. rewrite Hx. reflexivity.
Qed.

Lemma Print_holder (E : Statement -> M Env ObjectHolder) (fuel : nat)
    (h : ObjectHolder) (c : Closure) (st : State) :
  TryAs_ClassInstance h = None ->
  match h with
  | Some o => lift (Object_Print E fuel o)
  | None => lift (write "None")
  end (c, st)
  = ((c, mk_State (heap st) (String.append (out st) (render h))), Returns tt).
Proof.
  intros Hh. destruct h as [o|]; [|reflexivity].
  unfold lift. cbn [fst snd]. rewrite (Object_Print_plain _ _ _ _ Hh). reflexivity.
Qed.

Lemma Print_loop_rest (fuel : nat) (names : list string) (hs : list ObjectHolder)
    (c : Closure) :
  Forall2 (fun x h => c !! x = Some h /\ TryAs_ClassInstance h = None) names hs ->
  forall st,
    Print_loop (Execute (S fuel)) (S fuel) false
      (map (fun x => VariableValue [x]) names) (c, st)
    = ((c, mk_State (heap st)
              (String.append (out st)
                 (fold_right (fun u acc => String.append " " (String.append u acc))
                    "" (map render hs)))),
       Returns tt).
Proof.
  induction 1 as [|x h names hs [Hx Hh] _ IH]; intros st.
  - simpl. unfold ret. rewrite string_append_nil_r. destruct st; reflexivity.
  - cbn [map Print_loop negb fold_right].
    unfold bind at 1. unfold lift at 1, write at 1. cbn [fst snd].
    unfold bind at 1. rewrite (Execute_name fuel x h c _ Hx).
    unfold bind at 1. rewrite (Print_holder _ _ h c _ Hh).
    rewrite IH. cbn [heap out].
    rewrite <- !string_append_assoc. reflexivity.
Qed.

(** X16: [Print] of names bound to holders that are not class instances
    leaves closure and store as they are and writes the texts of the holders
    ([None] for the empty holder) separated by single spaces and followed by
    one line feed; with no argument it writes the line feed alone. *)
Theorem Print_writes_a_line (fuel : nat) (names : list string)
    (hs : list ObjectHolder) (c : Closure) (st : State) :
  Forall2 (fun x h => c !! x = Some h /\ TryAs_ClassInstance h = None) names hs ->
  Execute (S (S fuel)) (Print (map (fun x => VariableValue [x]) names)) (c, st)
    = ((c, mk_State (heap st)
              (String.append (out st)
                 (String.append (join_spaces (map render hs)) endl))),
       Returns None).
Proof.
  intros H. rewrite (Execute_S (S fuel)). cbn [Execute_node].
  unfold Print_Execute. destruct H as [|x h names hs [Hx Hh] Hrest].
  - destruct st; reflexivity.
  - cbn [map Print_loop negb]. unfold bind at 1. unfold bind at 1.
    unfold ret at 1. unfold bind at 1. rewrite (Execute_name fuel x h c _ Hx).
    unfold bind at 1. rewrite (Print_holder _ _ h c _ Hh).
    rewrite (Print_loop_rest fuel names hs c Hrest).
    unfold bind, lift, write, ret. cbn [fst snd heap out map].
    rewrite join_spaces_cons. rewrite <- !string_append_assoc. reflexivity.
Qed.

End PrintFormat.

Section MethodActivation.
Import statement runtime ast props eval_props.

Lemma emplace_keeps (m : Closure) (k x : string) (v w : ObjectHolder) :
  m !! x = Some w -> emplace k v m !! x = Some w.
Proof.
  intros Hx. unfold emplace. destruct (m !! k) eqn:Hk; [exact Hx|].
  rewrite lookup_insert_ne; [exact Hx|]. intros ->. congruence.
Qed.

Lemma emplace_other (m : Closure) (k x : string) (v : ObjectHolder) :
  k <> x -> emplace k v m !! x = m !! x.
Proof.
  intros Hne. unfold emplace. destruct (m !! k); [reflexivity|].
  apply lookup_insert_ne. exact Hne.
Qed.

Lemma emplace_fresh (m : Closure) (k : string) (v : ObjectHolder) :
  m !! k = None -> emplace k v m !! k = Some v.
Proof. intros Hk. unfold emplace. rewrite Hk. apply lookup_insert_eq. Qed.

Lemma emplace_args_keeps (ps : list string) (args : list ObjectHolder)
    (m : Closure) (x : string) (w : ObjectHolder) :
  m !! x = Some w -> emplace_args ps args m !! x = Some w.
Proof.
  revert args m. induction ps as [|p ps IH]; intros args m Hx; [exact Hx|].
  destruct args as [|a args]; [exact Hx|]. simpl.
  apply IH. apply emplace_keeps. exact Hx.
Qed.

Lemma emplace_args_other (ps : list string) (args : list ObjectHolder)
    (m : Closure) (x : string) :
  x ∉ ps -> emplace_args ps args m !! x = m !! x.
Proof.
  revert args m. induction ps as [|p ps IH]; intros args m Hx; [reflexivity|].
  destruct args as [|a args]; [reflexivity|]. simpl.
  apply not_elem_of_cons in Hx as [Hne Hx].
  rewrite (IH args _ Hx). apply emplace_other. congruence.
Qed.

Lemma emplace_args_bound (ps : list string) :
  forall (args : list ObjectHolder) (m : Closure) (i : nat) (p : string)
         (a : ObjectHolder),
  NoDup ps -> ps !! i = Some p -> args !! i = Some a -> m !! p = None ->
  emplace_args ps args m !! p = Some a.
Proof.
  induction ps as [|q ps IH]; intros args m i p a Hnd Hp Ha Hm; [discriminate|].
  destruct args as [|b args]; [discriminate|].
  apply NoDup_cons in Hnd as [Hq Hnd]. simpl. destruct i as [|i].
  - simpl in Hp, Ha. injection Hp as ->. injection Ha as ->.
    apply emplace_args_keeps. apply emplace_fresh. exact Hm.
  - simpl in Hp, Ha. apply (IH args _ i p a Hnd Hp Ha).
    rewrite emplace_other; [exact Hm|].
    intros ->. apply Hq. eapply list_elem_of_lookup_2. exact Hp.
Qed.

(** X17: a call of a method the instance has runs the body of the method
    found by name in a closure of its own, in which each formal parameter
    (the names being distinct) is bound to the argument at its position,
    [self] is bound to the receiver unless a formal parameter is itself
    named [self], and no other name is bound. *)
Theorem Call_activation (E : Statement -> M Env ObjectHolder) (self : loc)
    (method : string) (args : list ObjectHolder) (st : State)
    (this : Instance) (m : Method) :
  heap st !! self = Some this ->
  GetMethod (cls_ this) method = Some m ->
  length (formal_params m) = length args ->
  NoDup (formal_params m) ->
  exists closure : Closure,
    Call E self method args st
      = (let '((_, st'), result) := E (body m) (closure, st) in (st', result)) /\
    (forall i p a, formal_params m !! i = Some p -> args !! i = Some a ->
       closure !! p = Some a) /\
    ("self" ∉ formal_params m ->
       closure !! "self" = Some (Some (ClassInstance self))) /\
    (forall x, x ∉ formal_params m -> x <> "self" -> closure !! x = None).
Proof.
  intros Hheap Hm Hlen Hnd.
  exists (emplace "self" (Some (ClassInstance self))
            (emplace_args (formal_params m) args ∅)).
  split; [|split; [|split]].
  - unfold Call, bind, instance_at. rewrite Hheap.
    unfold HasMethod. rewrite Hm, Hlen, Nat.eqb_refl. reflexivity.
  - intros i p a Hp Ha. apply emplace_keeps.
    apply (emplace_args_bound _ _ _ i p a Hnd Hp Ha). apply lookup_empty.
  - intros Hself. apply emplace_fresh.
    rewrite (emplace_args_other _ _ _ _ Hself). apply lookup_empty.
  - intros x Hx Hne. rewrite emplace_other by congruence.
    rewrite (emplace_args_other _ _ _ _ Hx). apply lookup_empty.
Qed.

End MethodActivation.

Section PrimitiveOrder.
Import statement runtime ast props eval_props.

Variable E : Statement -> M Env ObjectHolder.

Lemma string_order_cases (a b : string) :
  (String.ltb a b = true /\ String.eqb a b = false /\ String.ltb b a = false) \/
  (String.ltb a b = false /\ String.eqb a b = true /\ String.ltb b a = false) \/
  (String.ltb a b = false /\ String.eqb a b = false /\ String.ltb b a = true).
Proof.
  unfold String.ltb. rewrite (String.compare_antisym b a).
  destruct (String.compare a b) eqn:Hc; simpl.
  - apply String.compare_eq_iff in Hc. subst b. rewrite String.eqb_refl. auto.
  - left. split; [reflexivity|]. split; [|reflexivity].
    apply String.eqb_neq. intros ->.
    rewrite string_compare_refl in Hc. discriminate.
  - right. right. split; [reflexivity|]. split; [|reflexivity].
    apply String.eqb_neq. intros ->.
    rewrite string_compare_refl in Hc. discriminate.
Qed.

(** X18: on two primitives of the same kind the comparisons touch nothing and
    form a strict order with equality: exactly one of [Less (a, b)],
    [Equal (a, b)] and [Less (b, a)] is true, [Equal] is symmetric, and the
    derived comparisons are [Greater (a, b) = Less (b, a)], [LessOrEqual =
    Less or Equal], [GreaterOrEqual = Greater or Equal], [NotEqual = Less or
    Greater]. *)
Theorem primitive_comparisons_form_an_order (a b : Object) (st : State) :
  is_primitive a = true ->
  prim_kind (Some a) = prim_kind (Some b) ->
  exists lt eq gt : bool,
    Less E (Some a) (Some b) st = (st, Returns lt) /\
    Equal E (Some a) (Some b) st = (st, Returns eq) /\
    Less E (Some b) (Some a) st = (st, Returns gt) /\
    Equal E (Some b) (Some a) st = (st, Returns eq) /\
    ((lt = true /\ eq = false /\ gt = false) \/
     (lt = false /\ eq = true /\ gt = false) \/
     (lt = false /\ eq = false /\ gt = true)) /\
    Greater E (Some a) (Some b) st = (st, Returns gt) /\
    LessOrEqual E (Some a) (Some b) st = (st, Returns (lt || eq)) /\
    GreaterOrEqual E (Some a) (Some b) st = (st, Returns (gt || eq)) /\
    NotEqual E (Some a) (Some b) st = (st, Returns (lt || gt)).
Proof.
  intros Ha Hk.
  destruct a as [x|x|x| |]; try discriminate;
    destruct b as [y|y|y| |]; try discriminate.
  - exists (x <? y), (x =? y), (y <? x).
    unfold Greater, LessOrEqual, GreaterOrEqual, NotEqual, Less, Equal, bind, ret.
    simpl. rewrite (Z.eqb_sym y x).
    destruct (Z.ltb_spec x y), (Z.eqb_spec x y), (Z.ltb_spec y x); try lia;
      simpl; repeat split; auto.
  - exists (String.ltb x y), (String.eqb x y), (String.ltb y x).
    unfold Greater, LessOrEqual, GreaterOrEqual, NotEqual, Less, Equal, bind, ret.
    simpl. rewrite (String.eqb_sym y x).
    destruct (string_order_cases x y) as [(-> & -> & ->) | [(-> & -> & ->) | (-> & -> & ->)]];
      simpl; repeat split; auto.
  - exists (negb x && y), (Bool.eqb x y), (negb y && x).
    unfold Greater, LessOrEqual, GreaterOrEqual, NotEqual, Less, Equal, bind, ret.
    destruct x, y; simpl; repeat split; auto.
Qed.

(** X19: comparisons are defined only on like operands.  When the left
    operand is not a class instance and the operands are not two primitives
    of the same kind, [Less] raises a runtime error, and so does [Equal]
    unless both holders are empty, in which case it is true; nothing is
    touched. *)
Theorem mixed_comparisons_raise (lhs rhs : ObjectHolder) (st : State) :
  TryAs_ClassInstance lhs = None ->
  (prim_kind lhs = None \/ prim_kind lhs <> prim_kind rhs) ->
  Less E lhs rhs st = (st, Throws (runtime_error "Cannot compare objects for less")) /\
  Equal E lhs rhs st
    = (st, if negb (is_set lhs) && negb (is_set rhs) then Returns true
           else Throws (runtime_error "Cannot compare objects")).
Proof.
  intros Hni Hk. unfold Less, Equal, bind, ret, throw.
  destruct lhs as [[x|x|x|x|x]|]; try discriminate Hni;
    destruct rhs as [[y|y|y|y|y]|]; simpl in *;
    try (destruct Hk as [Hk|Hk]; [discriminate Hk | congruence]);
    split; reflexivity.
Qed.

End PrimitiveOrder.

Section ConcreteRuns.
Import parse statement runtime ast props samples lexer_api lexer_props eval_props.

(** X3, on a literal in single quotes whose body holds the escape of a line feed. *)
Lemma LoadString_closed_witness :
  LoadString (stringstream (c_squote :: [ch 97; c_backslash; ch 110] ++ c_squote :: [ch 32]))
      Lexer_init
    = (mk_istream [ch 32] false,
       push_back Lexer_init (token_type.String (string_of_list_ascii [ch 97; ch 10]))).
Proof.
  exact (proj1 (LoadString_closed c_squote [ch 97; c_backslash; ch 110] [ch 32]
                  Lexer_init eq_refl eq_refl)).
Defined.


(** X8, on two assignments surrounded by empty lines. *)
Lemma lexed_newlines_are_single_witness :
  head_ok
    [token_type.Id "x"; token_type.Char (ch 61); token_type.Number 1;
     token_type.Newline; token_type.Id "y"; token_type.Char (ch 61);
     token_type.Number 2; token_type.Newline; token_type.Eof] = true /\
  no_double_newline
    [token_type.Id "x"; token_type.Char (ch 61); token_type.Number 1;
     token_type.Newline; token_type.Id "y"; token_type.Char (ch 61);
     token_type.Number 2; token_type.Newline; token_type.Eof] = true.
Proof.
  apply (lexed_newlines_are_single 20 "

x = 1


y = 2

").
  vm_compute. reflexivity.
Defined.

(** X9, on the lexer of [x = 1]: two steps reach the number, nine steps stay on EOF. *)
Lemma NextToken_walks_and_stops_witness :
  Some (token_type.Number 1)
    = Some (CurrentToken (Nat.iter 2 NextToken
        (mk_Lexer (token_type.Id "x") 1%nat
           [token_type.Id "x"; token_type.Char (ch 61); token_type.Number 1;
            token_type.Newline; token_type.Eof] 0))) /\
  CurrentToken (Nat.iter 9 NextToken
    (mk_Lexer (token_type.Id "x") 1%nat
       [token_type.Id "x"; token_type.Char (ch 61); token_type.Number 1;
        token_type.Newline; token_type.Eof] 0)) = token_type.Eof.
Proof.
  pose proof (NextToken_walks_and_stops 20 "x = 1" _ eq_refl) as H.
  split.
  - exact (proj1 (H 2%nat)).
  - apply (proj2 (H 9%nat)). simpl. lia.
Defined.

(** X11, on the sum [1 + 2]. *)
Lemma Stringify_matches_Print_witness :
  Execute 3 (Print [Add (Some (NumericConst 1)) (Some (NumericConst 2))])
      (∅, empty_state)
    = ((∅, mk_State [] (String.append "" (String.append "3" endl))), Returns None).
Proof.
  apply (Stringify_matches_Print 2
           (Add (Some (NumericConst 1)) (Some (NumericConst 2)))
           (∅, empty_state) ∅ empty_state "3").
  vm_compute. reflexivity.
Defined.

(** X12, on [y = x + 1] where [x] is 123. *)
Lemma assignment_then_lookup_witness :
  Execute 3 (Assignment "y" (Add (Some (VariableValue ["x"])) (Some (NumericConst 1))))
      (x123, empty_state)
    = ((<["y" := Some (Number 124)]> x123, empty_state), Returns (Some (Number 124))) /\
  Execute 1 (VariableValue ["y"]) (<["y" := Some (Number 124)]> x123, empty_state)
    = ((<["y" := Some (Number 124)]> x123, empty_state), Returns (Some (Number 124))).
Proof.
  destruct (assignment_then_lookup 2 "y"
              (Add (Some (VariableValue ["x"])) (Some (NumericConst 1)))
              (x123, empty_state) x123 empty_state (Some (Number 124))
              ltac:(vm_compute; reflexivity)) as (H1 & H2 & _).
  split; [exact H1 | exact (H2 0%nat)].
Defined.

(** X13, on [z.n = 5] read back as [w.n], with [w] and [z] bound to the same instance. *)
Lemma field_write_visible_through_aliases_witness :
  Execute 2 (FieldAssignment ["z"] "n" (NumericConst 5))
      (<["w" := Some (ClassInstance 0%nat)]> Z_closure, Z_state)
    = ((<["w" := Some (ClassInstance 0%nat)]> Z_closure,
        mk_State (<[0%nat := mk_Instance Z_class (<["n" := Some (Number 5)]> ∅)]>
                    [ClassInstance_new Z_class]) ""),
       Returns (Some (Number 5))) /\
  Execute 1 (VariableValue ["w"; "n"])
      (<["w" := Some (ClassInstance 0%nat)]> Z_closure,
       mk_State (<[0%nat := mk_Instance Z_class (<["n" := Some (Number 5)]> ∅)]>
                   [ClassInstance_new Z_class]) "")
    = ((<["w" := Some (ClassInstance 0%nat)]> Z_closure,
        mk_State (<[0%nat := mk_Instance Z_class (<["n" := Some (Number 5)]> ∅)]>
                    [ClassInstance_new Z_class]) ""),
       Returns (Some (Number 5))).
Proof.
  pose (c := (<["w" := Some (ClassInstance 0%nat)]> Z_closure : Closure)).
  assert (VariableValue_walk Z_state ["z"] c = Returns (Some (ClassInstance 0%nat)))
    as Hwalk by (vm_compute; reflexivity).
  assert (Execute 1 (NumericConst 5) (c, Z_state)
          = ((c, Z_state), Returns (Some (Number 5))))
    as Hrv by (vm_compute; reflexivity).
  assert (c !! "w" = Some (Some (ClassInstance 0%nat)))
    as Hw by (vm_compute; reflexivity).
  destruct (field_write_visible_through_aliases 1 ["z"] "n" (NumericConst 5)
              c c Z_state Z_state 0%nat (ClassInstance_new Z_class)
              (Some (Number 5)) Hwalk Hrv eq_refl) as [H1 H2].
  split; [exact H1 | exact (H2 0%nat "w" Hw)].
Defined.

(** X15, on [A()] where [__init__] of [A] takes one parameter. *)
Lemma NewInstance_without_matching_init_witness :
  Execute 2 (NewInstance 0%nat []) (∅, leak_state)
    = ((∅, mk_State (heap leak_state ++ [ClassInstance_new A_class]) ""),
       Returns (Some (ClassInstance 2%nat))).
Proof.
  apply (NewInstance_without_matching_init 1 0%nat [] (∅, leak_state) ∅
           leak_state [] (ClassInstance_new A_class));
    vm_compute; reflexivity.
Defined.

(** X16, on [print x, n, x] with [x] a number and [n] an empty holder. *)
Lemma Print_writes_a_line_witness :
  Execute 2 (Print [VariableValue ["x"]; VariableValue ["n"]; VariableValue ["x"]])
      (<["n" := None]> x123, empty_state)
    = ((<["n" := None]> x123,
        mk_State [] (String.append "" (String.append "123 None 123" endl))),
       Returns None).
Proof.
  apply (Print_writes_a_line 0 ["x"; "n"; "x"]
           [Some (Number 123); None; Some (Number 123)]
           (<["n" := None]> x123) empty_state).
  repeat constructor.
Defined.

(** X17, on a call of [f] with one argument on an instance of [X]. *)
Lemma Call_activation_witness :
  exists closure : Closure,
    Call (Execute 5) 0%nat "f" [Some (Number 7)] (mk_State [ClassInstance_new X] "")
      = (let '((_, st'), result) :=
             Execute 5 (body X_f1) (closure, mk_State [ClassInstance_new X] "")
         in (st', result)) /\
    closure !! "a" = Some (Some (Number 7)) /\
    closure !! "self" = Some (Some (ClassInstance 0%nat)) /\
    closure !! "b" = None.
Proof.
  destruct (Call_activation (Execute 5) 0%nat "f" [Some (Number 7)]
              (mk_State [ClassInstance_new X] "") (ClassInstance_new X) X_f1
              eq_refl eq_refl eq_refl
              (NoDup_singleton "a"))
    as (closure & Hc & Hp & Hs & Ho).
  exists closure. split; [exact Hc|]. split; [|split].
  - exact (Hp 0%nat "a" (Some (Number 7)) eq_refl eq_refl).
  - apply Hs. apply not_elem_of_cons. split; [discriminate | apply not_elem_of_nil].
  - apply Ho; [|discriminate].
    apply not_elem_of_cons. split; [discriminate | apply not_elem_of_nil].
Defined.

(** X18, on two strings. *)
Lemma primitive_comparisons_form_an_order_witness :
  exists lt eq gt : bool,
    Less (Execute 0) (Some (String "abc")) (Some (String "abd")) empty_state
      = (empty_state, Returns lt) /\
    Equal (Execute 0) (Some (String "abc")) (Some (String "abd")) empty_state
      = (empty_state, Returns eq) /\
    Less (Execute 0) (Some (String "abd")) (Some (String "abc")) empty_state
      = (empty_state, Returns gt) /\
    ((lt = true /\ eq = false /\ gt = false) \/
     (lt = false /\ eq = true /\ gt = false) \/
     (lt = false /\ eq = false /\ gt = true)).
Proof.
  destruct (primitive_comparisons_form_an_order (Execute 0) (String "abc")
              (String "abd") empty_state eq_refl eq_refl)
    as (lt & eq & gt & H1 & H2 & H3 & _ & H5 & _).
  exists lt, eq, gt. repeat split; assumption.
Defined.

(** X19, on a number against a string, and on two empty holders. *)
Lemma mixed_comparisons_raise_witness :
  Less (Execute 0) (Some (Number 1)) (Some (String "1")) empty_state
    = (empty_state, Throws (runtime_error "Cannot compare objects for less")) /\
  Equal (Execute 0) (Some (Number 1)) (Some (String "1")) empty_state
    = (empty_state, Throws (runtime_error "Cannot compare objects")) /\
  Equal (Execute 0) None None empty_state = (empty_state, Returns true).
Proof.
  destruct (mixed_comparisons_raise (Execute 0) (Some (Number 1)) (Some (String "1"))
              empty_state eq_refl ltac:(right; discriminate)) as [H1 H2].
  destruct (mixed_comparisons_raise (Execute 0) None None empty_state eq_refl
              ltac:(left; reflexivity)) as [_ H3].
  repeat split; assumption.
Defined.

End ConcreteRuns.
